(** * Skiing in Singapore: the longest, then steepest, descending path

    A shallow embedding of [src/main.cpp] and the proofs of its
    specification.  The C++ [int] is a 32-bit two's-complement integer,
    modelled as [Z] with the wrap-around written out; a [std::vector] is a
    [list] read through a bounds-checked lookup, so that an access outside
    the vector (undefined behaviour in C++) is an explicit [Fault]. *)

From stdpp Require Import base list list_numbers strings pretty.
From Stdlib Require Import ZArith Lia.

Local Open Scope Z_scope.

(** ** Outcomes of a computation *)

(** [Done a]: the code returns [a].  [Fault]: the C++ program has no
    defined result (a vector read out of range, a division by zero, or an
    uncaught [std::length_error]).  [OutOfFuel]: the recursion bound of the
    model was reached; it is shown below that this never happens. *)
Inductive outcome (A : Type) : Type :=
  | Done (a : A)
  | Fault
  | OutOfFuel.
Arguments Done {A} a.
Arguments Fault {A}.
Arguments OutOfFuel {A}.

Definition bind {A B} (m : outcome A) (f : A → outcome B) : outcome B :=
  match m with
  | Done a => f a
  | Fault => Fault
  | OutOfFuel => OutOfFuel
  end.

Notation "'let*' x ':=' m 'in' f" := (bind m (fun x => f))
  (at level 10, x pattern, m at level 100, f at level 200).

(** A range-based [for] loop over a vector, threading the loop state. *)
Fixpoint foldM {A S} (f : S → A → outcome S) (l : list A) (s : S) : outcome S :=
  match l with
  | [] => Done s
  | a :: l' => let* s' := f s a in foldM f l' s'
  end.

(** ** 32-bit integers *)

Definition INT_MIN : Z := -2147483648.
Definition INT_MAX : Z := 2147483647.

Definition wrap (x : Z) : Z := (x + 2147483648) mod 4294967296 - 2147483648.
Definition add32 (a b : Z) : Z := wrap (a + b).
Definition sub32 (a b : Z) : Z := wrap (a - b).
Definition mul32 (a b : Z) : Z := wrap (a * b).

(** [a / b] and [a % b] of C++ truncate towards zero; a zero divisor is
    undefined. *)
Definition div32 (a b : Z) : outcome Z :=
  if b =? 0 then Fault else Done (wrap (Z.quot a b)).
Definition rem32 (a b : Z) : outcome Z :=
  if b =? 0 then Fault else Done (Z.rem a b).

(** [v[i]] for a [std::vector] and an [int] index. *)
Definition at_index {A} (l : list A) (i : Z) : outcome A :=
  if i <? 0 then Fault
  else match l !! Z.to_nat i with
       | Some x => Done x
       | None => Fault
       end.

(** [std::vector<T> v(n)] and [v.resize(n)] on an empty vector: [n] copies
    of the initial value; a negative [int] converts to a length beyond
    [max_size] and the constructor throws. *)
Definition make_vector {A} (n : Z) (x : A) : outcome (list A) :=
  if n <? 0 then Fault else Done (replicate (Z.to_nat n) x).

(** ** The elevation map *)

Record ElevationMap : Type := {
  rows : Z;
  columns : Z;
  size : Z;          (* = rows * columns *)
  data : list Z      (* row-major *)
}.

(** The input stream is taken as the sequence of integers that [operator>>]
    extracts ("Assumes input is well-formed!").  Once the stream is
    exhausted an extraction leaves its target at the zero it was
    initialised with. *)
Fixpoint read_data (cells : list Z) (tokens : list Z) : list Z :=
  match cells with
  | [] => []
  | datum :: cells' =>
      match tokens with
      | [] => datum :: read_data cells' []
      | t :: tokens' => t :: read_data cells' tokens'
      end
  end.

Definition read (tokens : list Z) : outcome ElevationMap :=
  let columns := nth 0 tokens 0 in
  let rows := nth 1 tokens 0 in
  let size := mul32 rows columns in
  let* cells := make_vector size 0 in
  Done {| rows := rows; columns := columns; size := size;
          data := read_data cells (skipn 2 tokens) |}.

(** The four guarded tests of [lower_neighbors] share this shape:
    [if (elevation > data[j]) result.push_back(j);]. *)
Definition push_if_lower (map : ElevationMap) (elevation j : Z)
    (result : list Z) : outcome (list Z) :=
  let* e := at_index (data map) j in
  Done (if elevation >? e then result ++ [j] else result).

Definition lower_neighbors (map : ElevationMap) (index : Z) : outcome (list Z) :=
  let result := [] in
  let* row := div32 index (columns map) in
  let* column := rem32 index (columns map) in
  let* elevation := at_index (data map) index in
  (* left *)
  let* result :=
    if column >? 0 then push_if_lower map elevation (sub32 index 1) result
    else Done result in
  (* right *)
  let* result :=
    if column <? sub32 (columns map) 1
    then push_if_lower map elevation (add32 index 1) result
    else Done result in
  (* top *)
  let* result :=
    if row >? 0
    then push_if_lower map elevation (sub32 index (columns map)) result
    else Done result in
  (* bottom *)
  let* result :=
    if row <? sub32 (rows map) 1
    then push_if_lower map elevation (add32 index (columns map)) result
    else Done result in
  Done result.

(** ** The solver *)

Record NodeState : Type := {
  visited : bool;
  distance : Z;   (* maximum distance to any reachable leaf node *)
  drop : Z        (* maximum drop along one of the longest paths *)
}.

Definition initial_state : NodeState :=
  {| visited := false; distance := 0; drop := 0 |}.

(** [states[v].field = x]: the vector has already been read at [v] when
    these run, so the in-range update of stdpp is the assignment. *)
Definition set_state (states : list NodeState) (v : Z) (s : NodeState)
    : list NodeState :=
  <[Z.to_nat v := s]> states.

(** The body of the loop of [dfs] after the recursive call: the candidate
    through neighbour [u] against the pair recorded for [v]. *)
Definition relax (map : ElevationMap) (v u : Z) (states : list NodeState)
    : outcome (list NodeState) :=
  let* su := at_index states u in
  let* ev := at_index (data map) v in
  let* eu := at_index (data map) u in
  let distance' := add32 (distance su) 1 in
  let drop' := sub32 (add32 (drop su) ev) eu in
  let* sv := at_index states v in
  if distance' >? distance sv then
    Done (set_state states v
            {| visited := visited sv; distance := distance'; drop := drop' |})
  else if distance' =? distance sv then
    Done (set_state states v
            {| visited := visited sv; distance := distance sv;
               drop := Z.max (drop sv) drop' |})
  else Done states.

(** [dfs]: the recursion of the source, bounded by [fuel] nested calls. *)
Fixpoint dfs (fuel : nat) (map : ElevationMap) (v : Z)
    (states : list NodeState) : outcome (list NodeState) :=
  match fuel with
  | O => OutOfFuel
  | S fuel' =>
      let* neighbors := lower_neighbors map v in
      let* states :=
        foldM (fun states u =>
                 let* su := at_index states u in
                 let* states :=
                   if negb (visited su) then dfs fuel' map u states
                   else Done states in
                 relax map v u states)
              neighbors states in
      let* sv := at_index states v in
      Done (set_state states v
              {| visited := true; distance := distance sv; drop := drop sv |})
  end.

(** The state of the loop of [solve]. *)
Record Search : Type := {
  states : list NodeState;
  max_distance : Z;
  max_drop : Z
}.

Definition solve_step (fuel : nat) (map : ElevationMap) (s : Search) (v : Z)
    : outcome Search :=
  let* sv := at_index (states s) v in
  let* states :=
    if negb (visited sv) then dfs fuel map v (states s)
    else Done (states s) in
  let* sv := at_index states v in
  if distance sv >? max_distance s then
    Done {| states := states; max_distance := distance sv;
            max_drop := drop sv |}
  else if distance sv =? max_distance s then
    Done {| states := states; max_distance := max_distance s;
            max_drop := Z.max (max_drop s) (drop sv) |}
  else Done {| states := states; max_distance := max_distance s;
               max_drop := max_drop s |}.

(** The loop of [solve].  A chain of nested [dfs] calls follows a strictly
    descending path, which visits no cell twice, so [size] nested calls are
    enough (theorems [dfs_fuel_enough] and [path_length_le_size]). *)
Definition solve_loop (map : ElevationMap) : outcome Search :=
  let* states := make_vector (size map) initial_state in
  foldM (solve_step (Z.to_nat (size map)) map)
        (seqZ 0 (size map))
        {| states := states; max_distance := 0; max_drop := 0 |}.

Definition endl : string := String (Ascii.ascii_of_nat 10) EmptyString.

Definition show_int (z : Z) : string := pretty z.

(** [solve] returns the text written to standard output. *)
Definition solve (map : ElevationMap) : outcome string :=
  let* s := solve_loop map in
  Done ("Length: " +:+ show_int (add32 (max_distance s) 1) +:+ endl +:+
        "Drop: " +:+ show_int (max_drop s) +:+ endl).

(** ** The driver *)

Record Exit : Type := {
  exit_code : Z;
  stdout : string;
  stderr : string
}.

(** [main]: [argv] holds the program name and its arguments; [fs] gives the
    integers of a readable file and [None] for a path that cannot be
    opened. *)
Definition main (argv : list string) (fs : string → option (list Z))
    : outcome Exit :=
  if Z.of_nat (length argv) <? 2 then
    Done {| exit_code := 1; stdout := "";
            stderr := "Usage: redmart /path/to/map/file" +:+ endl |}
  else
    let path := nth 1 argv "" in
    match fs path with
    | None =>
        Done {| exit_code := 1; stdout := "";
                stderr := "Can't open " +:+ path +:+ endl |}
    | Some tokens =>
        let* map := read tokens in
        let* out := solve map in
        Done {| exit_code := 0; stdout := out; stderr := "" |}
    end.

Definition redmart_tokens : list Z :=
  [4; 4;
   4; 8; 7; 3;
   2; 5; 9; 3;
   6; 3; 2; 5;
   4; 4; 1; 6].

Definition one_file (name : string) (tokens : list Z) (path : string)
    : option (list Z) :=
  if decide (path = name) then Some tokens else None.


(** ** Well-formed grids and the descending-neighbour relation *)

Definition in_range (g : ElevationMap) (i : Z) : Prop := 0 ≤ i < size g.

Definition shape_ok (g : ElevationMap) : Prop :=
  1 ≤ columns g ∧ 1 ≤ rows g ∧ size g = rows g * columns g ∧
  size g ≤ INT_MAX ∧ Z.of_nat (length (data g)) = size g.

Definition elev_ok (g : ElevationMap) : Prop :=
  Forall (λ e, 0 ≤ e ≤ INT_MAX) (data g).

Definition well_formed (g : ElevationMap) : Prop := shape_ok g ∧ elev_ok g.

Definition elev (g : ElevationMap) (i : Z) : Z :=
  default 0 (data g !! Z.to_nat i).

(** Row and column of the linear index [i = r * C + c]. *)
Definition row_of (g : ElevationMap) (i : Z) : Z := i / columns g.
Definition col_of (g : ElevationMap) (i : Z) : Z := i mod columns g.

(** 4-connected: one step along a row or along a column. *)
Definition adjacent (g : ElevationMap) (i j : Z) : Prop :=
  Z.abs (row_of g j - row_of g i) + Z.abs (col_of g j - col_of g i) = 1.

(** [edge g i j]: one can ski from [i] to [j]. *)
Definition edge (g : ElevationMap) (i j : Z) : Prop :=
  in_range g i ∧ in_range g j ∧ adjacent g i j ∧ elev g j < elev g i.

(** [path g v w n]: a strictly descending path of [n] cells from [v] to
    [w]; its drop is [elev g v - elev g w]. *)
Inductive path (g : ElevationMap) : Z → Z → Z → Prop :=
  | path_one v : in_range g v → path g v v 1
  | path_step v u w n : edge g v u → path g u w n → path g v w (n + 1).

(** Pairs (length, drop) are compared by length first, then by drop. *)
Definition lex_le (n d L D : Z) : Prop := n < L ∨ (n = L ∧ d ≤ D).

(** [best_from g v L D]: the longest descending path from [v] has [L]
    cells, and [D] is the greatest drop among the paths of [L] cells from
    [v]. *)
Definition best_from (g : ElevationMap) (v L D : Z) : Prop :=
  (∃ w, path g v w L ∧ elev g v - elev g w = D) ∧
  (∀ w n, path g v w n → lex_le n (elev g v - elev g w) L D).

(** [best_overall g L D]: the same over all starting cells. *)
Definition best_overall (g : ElevationMap) (L D : Z) : Prop :=
  (∃ v w, path g v w L ∧ elev g v - elev g w = D) ∧
  (∀ v w n, path g v w n → lex_le n (elev g v - elev g w) L D).

(** The closed form of what [lower_neighbors] returns on a well-formed
    grid, in the order left, right, top, bottom. *)
Definition lower_if (g : ElevationMap) (c : bool) (e j : Z) : list Z :=
  if c && (elev g j <? e) then [j] else [].

Definition lower_list (g : ElevationMap) (i : Z) : list Z :=
  let r := row_of g i in
  let c := col_of g i in
  let e := elev g i in
  lower_if g (0 <? c) e (i - 1) ++
  lower_if g (c <? columns g - 1) e (i + 1) ++
  lower_if g (0 <? r) e (i - columns g) ++
  lower_if g (r <? rows g - 1) e (i + columns g).

(** Every difference of two elevations fits an [int]: what the drop
    arithmetic of [dfs] needs.  It holds on well-formed grids and is kept
    by a uniform shift of the elevations. *)
Definition drops_fit (g : ElevationMap) : Prop :=
  ∀ i j, in_range g i → in_range g j → elev g i - elev g j ≤ INT_MAX.

(** The state of cell [w] is consistent: final once visited, untouched
    before. *)
Definition cell_ok (g : ElevationMap) (st : list NodeState) (w : Z) : Prop :=
  ∃ s, st !! Z.to_nat w = Some s ∧
    if visited s then best_from g w (distance s + 1) (drop s)
    else distance s = 0 ∧ drop s = 0.

(** What a call [dfs(map, v, states)] establishes, from [st] to [st']. *)
Definition dfs_post (g : ElevationMap) (v : Z) (st st' : list NodeState)
    : Prop :=
  length st' = length st ∧
  (∀ w, in_range g w → elev g w ≤ elev g v → cell_ok g st' w) ∧
  (∀ w, in_range g w → elev g v < elev g w →
     st' !! Z.to_nat w = st !! Z.to_nat w) ∧
  (∀ i s, st !! i = Some s → visited s = true → st' !! i = Some s) ∧
  (∃ s, st' !! Z.to_nat v = Some s ∧ visited s = true).

(** The invariant of the loop of [dfs] over the neighbours of [v], after
    the neighbours [done], started from [st0]. *)
Definition dfs_inv (g : ElevationMap) (v : Z) (st0 : list NodeState)
    (done : list Z) (st : list NodeState) : Prop :=
  length st = length st0 ∧
  (∀ w, in_range g w → elev g w < elev g v → cell_ok g st w) ∧
  (∀ w, in_range g w → w ≠ v → elev g v ≤ elev g w →
     st !! Z.to_nat w = st0 !! Z.to_nat w) ∧
  (∀ i s, st0 !! i = Some s → visited s = true → st !! i = Some s) ∧
  ∃ sv, st !! Z.to_nat v = Some sv ∧ visited sv = false ∧
    (∃ w, path g v w (distance sv + 1) ∧ elev g v - elev g w = drop sv) ∧
    (∀ u w n, u ∈ done → path g u w n →
       lex_le (n + 1) (elev g v - elev g w) (distance sv + 1) (drop sv)).

(** What the solver has recorded for cell [v], and what it prints. *)
Definition length_at (s : Search) (v : Z) : Z :=
  match states s !! Z.to_nat v with
  | Some sv => distance sv + 1
  | None => 0
  end.
Definition drop_at (s : Search) (v : Z) : Z :=
  match states s !! Z.to_nat v with
  | Some sv => drop sv
  | None => 0
  end.
Definition best_length (s : Search) : Z := max_distance s + 1.
Definition best_drop (s : Search) : Z := max_drop s.

Definition report (L D : Z) : string :=
  "Length: " +:+ show_int L +:+ endl +:+ "Drop: " +:+ show_int D +:+ endl.

(** The invariant of the loop of [solve], after the cells [done]. *)
Definition solve_inv (g : ElevationMap) (done : list Z) (s : Search) : Prop :=
  Z.of_nat (length (states s)) = size g ∧
  (∀ w, in_range g w → cell_ok g (states s) w) ∧
  (∀ v, v ∈ done →
     ∃ sv, states s !! Z.to_nat v = Some sv ∧ visited sv = true) ∧
  (∃ a b, path g a b (max_distance s + 1) ∧
          elev g a - elev g b = max_drop s) ∧
  (∀ a b n, a ∈ done → path g a b n →
     lex_le n (elev g a - elev g b) (max_distance s + 1) (max_drop s)).

(** The final state of [solve]: every cell is final, and the two printed
    numbers are the optimum over the grid. *)
Definition solved (g : ElevationMap) (s : Search) : Prop :=
  (∀ v, in_range g v → best_from g v (length_at s v) (drop_at s v)) ∧
  best_overall g (best_length s) (best_drop s).

(** Grid transformations: a constant added to, or multiplied into, every
    elevation. *)
Definition map_elev (f : Z → Z) (g : ElevationMap) : ElevationMap :=
  {| rows := rows g; columns := columns g; size := size g;
     data := f <$> data g |}.
Definition add_elev (c : Z) : ElevationMap → ElevationMap :=
  map_elev (λ e, e + c).
Definition scale_elev (k : Z) : ElevationMap → ElevationMap :=
  map_elev (λ e, k * e).

(** Symmetries of the grid.  [reindex R' C' φ g] is the grid of [R'] rows
    and [C'] columns whose cell [i] holds the elevation of cell [φ i] of
    [g]. *)
Definition reindex (R' C' : Z) (φ : Z → Z) (g : ElevationMap) : ElevationMap :=
  {| rows := R'; columns := C'; size := size g;
     data := (λ i, elev g (φ i)) <$> seqZ 0 (size g) |}.

(** Mirror image left-right: cell [(r, c)] holds the old [(r, C - 1 - c)]. *)
Definition flip_h_index (g : ElevationMap) (i : Z) : Z :=
  columns g * row_of g i + (columns g - 1 - col_of g i).
Definition flip_h (g : ElevationMap) : ElevationMap :=
  reindex (rows g) (columns g) (flip_h_index g) g.

(** Mirror image top-bottom: cell [(r, c)] holds the old [(R - 1 - r, c)]. *)
Definition flip_v_index (g : ElevationMap) (i : Z) : Z :=
  columns g * (rows g - 1 - row_of g i) + col_of g i.
Definition flip_v (g : ElevationMap) : ElevationMap :=
  reindex (rows g) (columns g) (flip_v_index g) g.

(** Transposition: the new grid has [C] rows of [R] cells, and its cell
    [(c, r)], of index [R * c + r], holds the old [(r, c)]. *)
Definition transpose_index (g : ElevationMap) (i : Z) : Z :=
  columns g * (i mod rows g) + i / rows g.
Definition transpose (g : ElevationMap) : ElevationMap :=
  reindex (columns g) (rows g) (transpose_index g) g.

(** Quarter and half turns, composed from the above. *)
Definition rotate_cw (g : ElevationMap) : ElevationMap := flip_h (transpose g).
Definition rotate_ccw (g : ElevationMap) : ElevationMap := flip_v (transpose g).
Definition rotate_180 (g : ElevationMap) : ElevationMap := flip_h (flip_v g).

(** [φ] maps the cells of [g'] to cells of [g] of the same elevation,
    neighbours to neighbours. *)
Definition morphism (φ : Z → Z) (g' g : ElevationMap) : Prop :=
  (∀ i, in_range g' i → in_range g (φ i) ∧ elev g (φ i) = elev g' i) ∧
  (∀ i j, in_range g' i → in_range g' j → adjacent g' i j →
          adjacent g (φ i) (φ j)).

(** Greatest and least elevation of a grid. *)
Definition max_elev (g : ElevationMap) : Z :=
  match data g with
  | [] => 0
  | e :: l => foldr Z.max e l
  end.
Definition min_elev (g : ElevationMap) : Z :=
  match data g with
  | [] => 0
  | e :: l => foldr Z.min e l
  end.

(** The grid of the worked example, as [read] builds it. *)
Definition redmart_map : ElevationMap :=
  {| rows := 4; columns := 4; size := 16;
     data := [4; 8; 7; 3;
              2; 5; 9; 3;
              6; 3; 2; 5;
              4; 4; 1; 6] |}.

(** The run ends with a non-zero exit code and nothing on standard
    output. *)
Definition reports_error (r : outcome Exit) : Prop :=
  ∃ e, r = Done e ∧ exit_code e ≠ 0 ∧ stdout e = "".

(** The run ends with a non-zero exit code and a diagnostic on standard
    error. *)
Definition usage_error (r : outcome Exit) : Prop :=
  ∃ e, r = Done e ∧ exit_code e ≠ 0 ∧ stderr e ≠ "".

Definition usage_text : string := "Usage: redmart /path/to/map/file" +:+ endl.

(** [post m Q]: the computation [m] returns, and its value satisfies [Q]. *)
Definition post {A} (m : outcome A) (Q : A → Prop) : Prop :=
  match m with
  | Done a => Q a
  | Fault | OutOfFuel => False
  end.

(** Well-formedness of a concrete grid, by evaluation. *)
Ltac grid_ok :=
  split;
  [ unfold shape_ok; simpl; unfold INT_MAX; lia
  | unfold elev_ok; simpl;
    repeat (apply List.Forall_cons; [unfold INT_MAX; lia|]);
    apply List.Forall_nil ].

(** ** 32-bit arithmetic *)

Lemma wrap_small x : INT_MIN ≤ x ≤ INT_MAX → wrap x = x.
Proof.
  unfold wrap, INT_MIN, INT_MAX. intros Hx.
  rewrite Z.mod_small; lia.
Qed.

Lemma wrap_congr x y k : x = y + k * 4294967296 → wrap x = wrap y.
Proof.
  intros ->. unfold wrap.
  replace (y + k * 4294967296 + 2147483648)
    with (y + 2147483648 + k * 4294967296) by lia.
  by rewrite Z.mod_add.
Qed.

Lemma wrap_spec x : ∃ k, wrap x = x + k * 4294967296.
Proof.
  exists (- ((x + 2147483648) / 4294967296)). unfold wrap.
  pose proof (Z.div_mod (x + 2147483648) 4294967296). lia.
Qed.

Lemma sub32_add32 a b c : sub32 (add32 a b) c = wrap (a + b - c).
Proof.
  unfold sub32, add32. destruct (wrap_spec (a + b)) as [k ->].
  apply (wrap_congr _ _ k). lia.
Qed.

(** ** Rules for [post] *)

Lemma post_done {A} (a : A) (Q : A → Prop) : Q a → post (Done a) Q.
Proof. done. Qed.

Lemma post_bind {A B} (m : outcome A) (f : A → outcome B) (Q : B → Prop) :
  post m (λ a, post (f a) Q) → post (bind m f) Q.
Proof. by destruct m. Qed.

Lemma post_mono {A} (m : outcome A) (P Q : A → Prop) :
  post m P → (∀ a, P a → Q a) → post m Q.
Proof. destruct m; simpl; auto. Qed.

Lemma post_elim {A} (m : outcome A) (Q : A → Prop) :
  post m Q → ∃ a, m = Done a ∧ Q a.
Proof. destruct m; simpl; [eauto | done..]. Qed.

Lemma post_intro {A} (m : outcome A) (Q : A → Prop) a :
  m = Done a → Q a → post m Q.
Proof. by intros ->. Qed.

(** The loop rule: [I done s] relates the elements already processed to
    the loop state. *)
Lemma foldM_post_gen {A S} (f : S → A → outcome S) (I : list A → S → Prop) :
  ∀ (todo done : list A) (s : S),
    I done s →
    (∀ pre a suf s', done ++ todo = pre ++ a :: suf →
       I pre s' → post (f s' a) (I (pre ++ [a]))) →
    post (foldM f todo s) (I (done ++ todo)).
Proof.
  induction todo as [|a todo IH]; intros done s HI Hstep; simpl.
  - by rewrite app_nil_r.
  - apply post_bind.
    eapply post_mono; [by apply (Hstep done a todo s)|].
    intros s' HI'. simpl.
    replace (done ++ a :: todo) with ((done ++ [a]) ++ todo)
      by by rewrite <- app_assoc.
    apply IH; [done|].
    intros pre b suf s'' Heq. apply (Hstep pre b suf).
    by rewrite <- Heq, <- app_assoc.
Qed.

Lemma foldM_post {A S} (f : S → A → outcome S) (I : list A → S → Prop)
    (l : list A) (s : S) :
  I [] s →
  (∀ pre a suf s', l = pre ++ a :: suf →
     I pre s' → post (f s' a) (I (pre ++ [a]))) →
  post (foldM f l s) (I l).
Proof. intros HI Hstep. by apply (foldM_post_gen f I l [] s). Qed.

(** ** The grid: lookups and geometry *)

Section Grid.
Variable g : ElevationMap.
Hypothesis Hshape : shape_ok g.

Lemma at_index_data i :
  in_range g i → at_index (data g) i = Done (elev g i).
Proof using Hshape.
  destruct Hshape as (_ & _ & _ & _ & Hlen). intros [Hi0 Hi1].
  unfold at_index, elev.
  destruct (Z.ltb_spec i 0) as [|_]; [lia|].
  destruct (lookup_lt_is_Some_2 (data g) (Z.to_nat i)) as [x ->]; [lia|done].
Qed.

Lemma row_col_bounds i :
  in_range g i →
  i = columns g * row_of g i + col_of g i ∧
  0 ≤ col_of g i < columns g ∧ 0 ≤ row_of g i < rows g.
Proof using Hshape.
  destruct Hshape as (HC & HR & Hsz & _ & _). intros [Hi0 Hi1].
  unfold row_of, col_of.
  pose proof (Z.div_mod i (columns g)) as Hdm.
  pose proof (Z.mod_pos_bound i (columns g)) as Hm.
  split; [lia|]. split; [lia|]. split.
  - apply Z.div_pos; lia.
  - apply Z.div_lt_upper_bound; lia.
Qed.

Lemma row_col_unique i q r :
  0 ≤ r < columns g → i = columns g * q + r →
  row_of g i = q ∧ col_of g i = r.
Proof.
  intros Hr Hi. unfold row_of, col_of. split; symmetry.
  - by apply (Z.div_unique_pos i (columns g) q r).
  - by apply (Z.mod_unique_pos i (columns g) q r).
Qed.

(** The four index offsets of the source are the 4-connected
    neighbours. *)
Lemma adjacent_offsets i j :
  in_range g i → in_range g j →
  adjacent g i j ↔
    (j = i - 1 ∧ 0 < col_of g i) ∨
    (j = i + 1 ∧ col_of g i < columns g - 1) ∨
    (j = i - columns g ∧ 0 < row_of g i) ∨
    (j = i + columns g ∧ row_of g i < rows g - 1).
Proof using Hshape.
  intros Hi Hj.
  destruct (row_col_bounds i Hi) as (Ei & Hci & Hri).
  destruct (row_col_bounds j Hj) as (Ej & Hcj & Hrj).
  unfold adjacent. split.
  - intros Hadj.
    assert ((row_of g j = row_of g i ∧ col_of g j = col_of g i - 1) ∨
            (row_of g j = row_of g i ∧ col_of g j = col_of g i + 1) ∨
            (col_of g j = col_of g i ∧ row_of g j = row_of g i - 1) ∨
            (col_of g j = col_of g i ∧ row_of g j = row_of g i + 1))
      as [[Hr Hc]|[[Hr Hc]|[[Hc Hr]|[Hc Hr]]]] by lia;
      rewrite Hr, Hc in Ej.
    + left. lia.
    + right; left. lia.
    + right; right; left. split; [|lia].
      rewrite Z.mul_sub_distr_l in Ej. lia.
    + right; right; right. split; [|lia].
      rewrite Z.mul_add_distr_l in Ej. lia.
  - intros [[-> Hc]|[[-> Hc]|[[-> Hr]|[-> Hr]]]].
    + destruct (row_col_unique (i - 1) (row_of g i) (col_of g i - 1))
        as [-> ->]; lia.
    + destruct (row_col_unique (i + 1) (row_of g i) (col_of g i + 1))
        as [-> ->]; lia.
    + destruct (row_col_unique (i - columns g) (row_of g i - 1) (col_of g i))
        as [-> ->]; [lia| |lia].
      rewrite Z.mul_sub_distr_l. lia.
    + destruct (row_col_unique (i + columns g) (row_of g i + 1) (col_of g i))
        as [-> ->]; [lia| |lia].
      rewrite Z.mul_add_distr_l. lia.
Qed.

(** Each guarded offset stays inside the grid. *)
Lemma offsets_in_range i :
  in_range g i →
  (0 < col_of g i → in_range g (i - 1)) ∧
  (col_of g i < columns g - 1 → in_range g (i + 1)) ∧
  (0 < row_of g i → in_range g (i - columns g)) ∧
  (row_of g i < rows g - 1 → in_range g (i + columns g)).
Proof using Hshape.
  intros Hi. destruct (row_col_bounds i Hi) as (Ei & Hci & Hri).
  destruct Hshape as (HC & HR & Hsz & _ & _). unfold in_range in *.
  repeat split; intros; nia.
Qed.

Lemma elem_of_lower_if c e j x :
  x ∈ lower_if g c e j ↔ x = j ∧ c = true ∧ elev g j < e.
Proof.
  unfold lower_if. destruct c; simpl.
  - destruct (Z.ltb_spec (elev g j) e).
    + rewrite list_elem_of_singleton. tauto.
    + rewrite elem_of_nil. split; [tauto|]. intros (_ & _ & ?). lia.
  - rewrite elem_of_nil. split; [tauto|]. by intros (_ & ? & _).
Qed.

Lemma elem_of_lower_list i j :
  in_range g i → j ∈ lower_list g i ↔ edge g i j.
Proof using Hshape.
  intros Hi. unfold lower_list, edge.
  rewrite !elem_of_app, !elem_of_lower_if.
  destruct (offsets_in_range i Hi) as (Hl & Hr & Ht & Hb).
  split.
  - intros H.
    assert (in_range g j) as Hj.
    { destruct H as [(-> & Hc & _)|[(-> & Hc & _)|[(-> & Hc & _)|(-> & Hc & _)]]];
        apply Z.ltb_lt in Hc; auto. }
    repeat split; try apply Hi; try apply Hj.
    + apply adjacent_offsets; [done..|].
      rewrite <- !Z.ltb_lt. tauto.
    + destruct H as [(-> & _ & ?)|[(-> & _ & ?)|[(-> & _ & ?)|(-> & _ & ?)]]];
        done.
  - intros (_ & Hj & Hadj & Hlt).
    apply adjacent_offsets in Hadj; [|done..].
    rewrite <- !Z.ltb_lt in Hadj.
    destruct Hadj as [[-> ?]|[[-> ?]|[[-> ?]|[-> ?]]]]; tauto.
Qed.

Lemma push_stage {B} (c : bool) (e jw j : Z) (res : list Z)
    (k : list Z → outcome B) :
  (c = true → jw = j ∧ in_range g j) →
  bind (if c then push_if_lower g e jw res else Done res) k
  = k (res ++ lower_if g c e j).
Proof using Hshape.
  intros Hc. unfold lower_if. destruct c; simpl.
  - destruct Hc as [-> Hj]; [done|].
    unfold push_if_lower. rewrite (at_index_data j Hj). simpl.
    rewrite Z.gtb_ltb. by destruct (elev g j <? e); rewrite ?app_nil_r.
  - by rewrite app_nil_r.
Qed.

Lemma lower_neighbors_eq i :
  in_range g i → lower_neighbors g i = Done (lower_list g i).
Proof using Hshape.
  intros Hi.
  destruct (row_col_bounds i Hi) as (Ei & Hci & Hri).
  destruct (offsets_in_range i Hi) as (Hl & Hr & Ht & Hb).
  pose proof Hshape as (HC & HR & Hsz & Hmax & _).
  pose proof Hi as [Hi0 Hi1].
  assert (columns g ≤ size g) as HCs by nia.
  assert (rows g ≤ size g) as HRs by nia.
  assert (row_of g i ≤ i) as Hri' by nia.
  unfold lower_neighbors, div32, rem32, lower_list.
  destruct (Z.eqb_spec (columns g) 0) as [|_]; [lia|]. simpl.
  rewrite Z.quot_div_nonneg, Z.rem_mod_nonneg by lia.
  fold (row_of g i) (col_of g i).
  rewrite (wrap_small (row_of g i)) by (unfold INT_MIN; lia).
  rewrite (at_index_data i Hi). simpl.
  unfold sub32 at 2 4. rewrite !(Z.gtb_ltb _ 0).
  rewrite (wrap_small (columns g - 1)), (wrap_small (rows g - 1))
    by (unfold INT_MIN; lia).
  rewrite (push_stage _ _ _ (i - 1)); cycle 1.
  { intros Hc%Z.ltb_lt. split; [|auto].
    apply wrap_small. unfold INT_MIN, INT_MAX in *; lia. }
  rewrite (push_stage _ _ _ (i + 1)); cycle 1.
  { intros Hc%Z.ltb_lt. split; [|auto].
    apply wrap_small. unfold INT_MIN, INT_MAX in *; lia. }
  rewrite (push_stage _ _ _ (i - columns g)); cycle 1.
  { intros Hc%Z.ltb_lt. split; [|auto].
    apply wrap_small. unfold INT_MIN, INT_MAX in *; lia. }
  rewrite (push_stage _ _ _ (i + columns g)); cycle 1.
  { intros Hc%Z.ltb_lt. split; [|auto].
    apply wrap_small. specialize (Hb Hc). unfold INT_MIN, in_range in *; lia. }
  simpl. by rewrite <- !app_assoc.
Qed.


(** *** Descending paths *)

Lemma path_in_range v w n : path g v w n → in_range g v ∧ in_range g w.
Proof.
  induction 1 as [v Hv|v u w n (Hv & _) _ [_ Hw]]; auto.
Qed.

(** Every step loses at least one unit of elevation. *)
Lemma path_drop v w n : path g v w n → 1 ≤ n ∧ n - 1 ≤ elev g v - elev g w.
Proof.
  induction 1 as [v Hv|v u w n (_ & _ & _ & Hlt) _ IH]; lia.
Qed.

(** The relation is acyclic: no cell is reached from itself by a step. *)
Lemma path_acyclic v n : path g v v n → n = 1.
Proof. intros H%path_drop. lia. Qed.

(** The cells of a path are pairwise distinct cells of the grid. *)
Lemma path_cells v w n :
  path g v w n →
  ∃ l : list Z, Z.of_nat (length l) = n ∧ NoDup l ∧
    ∀ x, x ∈ l → in_range g x ∧ elev g x ≤ elev g v.
Proof.
  induction 1 as [v Hv|v u w n (Hv & _ & _ & Hlt) _ (l & Hlen & Hnd & Hl)].
  - exists [v]. split; [done|]. split; [apply NoDup_singleton|].
    intros x ->%list_elem_of_singleton. split; [done|lia].
  - exists (v :: l). split; [simpl; lia|]. split.
    + apply NoDup_cons. split; [|done].
      intros Hin. apply Hl in Hin. lia.
    + intros x [->|Hin]%elem_of_cons; [split; [done|lia]|].
      apply Hl in Hin. split; [tauto|lia].
Qed.

(** Hence a path has at most [size] cells. *)
Lemma path_length_le_size v w n : path g v w n → n ≤ size g.
Proof.
  intros (l & <- & Hnd & Hl)%path_cells.
  assert (l ⊆+ seqZ 0 (size g)) as Hsub.
  { apply NoDup_submseteq; [done|]. intros x [Hx _]%Hl.
    apply elem_of_seqZ. unfold in_range in Hx. lia. }
  apply submseteq_length in Hsub. rewrite length_seqZ in Hsub.
  assert (0 ≤ size g) by (destruct Hshape as (HC & HR & -> & _); nia).
  lia.
Qed.

(** *** Reading and writing the state vector *)

Lemma at_index_Some {A} (l : list A) (i : Z) (x : A) :
  0 ≤ i → l !! Z.to_nat i = Some x → at_index l i = Done x.
Proof.
  intros Hi Hx. unfold at_index.
  destruct (Z.ltb_spec i 0); [lia|]. by rewrite Hx.
Qed.

Lemma lookup_state (st : list NodeState) i :
  Z.of_nat (length st) = size g → in_range g i →
  ∃ s, st !! Z.to_nat i = Some s.
Proof.
  intros Hlen [Hi0 Hi1]. apply lookup_lt_is_Some_2. lia.
Qed.

Lemma relax_length st v u :
  Z.of_nat (length st) = size g → in_range g v → in_range g u →
  post (relax g v u st) (λ st', length st' = length st).
Proof using Hshape.
  intros Hlen Hv Hu.
  destruct (lookup_state st u Hlen Hu) as [su Hsu].
  destruct (lookup_state st v Hlen Hv) as [sv Hsv].
  unfold relax.
  rewrite (at_index_Some st u su), !at_index_data by (done || apply Hu).
  simpl. rewrite (at_index_Some st v sv) by (done || apply Hv). simpl.
  repeat case_match; simpl; unfold set_state; by rewrite ?length_insert.
Qed.

(** *** Termination of [dfs] *)

(** [dfs] returns as soon as [fuel] bounds the number of cells of the
    descending paths from [v], whatever the state vector holds. *)
Lemma dfs_returns fuel :
  ∀ v st,
    in_range g v → Z.of_nat (length st) = size g →
    (∀ w n, path g v w n → n ≤ Z.of_nat fuel) →
    post (dfs fuel g v st) (λ st', length st' = length st).
Proof using Hshape.
  induction fuel as [|fuel IH]; intros v st Hv Hlen Hfuel.
  { specialize (Hfuel v 1 (path_one g v Hv)). lia. }
  simpl. rewrite (lower_neighbors_eq v Hv). simpl.
  apply post_bind.
  eapply post_mono.
  { apply (foldM_post _ (λ _ st', length st' = length st)); [done|].
    intros pre u suf st' Hl Hst'.
    assert (edge g v u) as He.
    { apply elem_of_lower_list; [done|]. rewrite Hl.
      apply elem_of_app. right. apply elem_of_cons. by left. }
    pose proof He as (_ & Hu & _).
    assert (Z.of_nat (length st') = size g) as Hlen' by lia.
    destruct (lookup_state st' u Hlen' Hu) as [su Hsu].
    rewrite (at_index_Some st' u su) by (done || apply Hu). simpl.
    apply post_bind.
    apply (post_mono _ (λ st'', length st'' = length st')).
    - destruct (visited su); simpl; [done|].
      apply IH; [done..|].
      intros w n Hp. specialize (Hfuel w (n + 1) (path_step g v u w n He Hp)).
      lia.
    - intros st'' Hst''. eapply post_mono.
      + apply relax_length; [lia|done..].
      + simpl. lia. }
  simpl. intros st' Hst'.
  destruct (lookup_state st' v) as [sv Hsv]; [lia|done|].
  rewrite (at_index_Some st' v sv) by (done || apply Hv). simpl.
  unfold set_state. by rewrite length_insert.
Qed.

Lemma dfs_fuel_enough v st :
  in_range g v → Z.of_nat (length st) = size g →
  post (dfs (Z.to_nat (size g)) g v st) (λ st', length st' = length st).
Proof using Hshape.
  intros Hv Hlen. apply dfs_returns; [done..|].
  intros w n Hp%path_length_le_size. lia.
Qed.

(** *** Correctness of [dfs] *)

Hypothesis Hfit : drops_fit g.

Lemma relax_post st v u su sv :
  in_range g v → in_range g u →
  st !! Z.to_nat u = Some su → st !! Z.to_nat v = Some sv →
  INT_MIN ≤ distance su + 1 ≤ INT_MAX →
  INT_MIN ≤ drop su + elev g v - elev g u ≤ INT_MAX →
  ∃ nd nr,
    relax g v u st
    = Done (set_state st v
              {| visited := visited sv; distance := nd; drop := nr |}) ∧
    lex_le (distance su + 1) (drop su + elev g v - elev g u) nd nr ∧
    lex_le (distance sv) (drop sv) nd nr ∧
    ((nd = distance sv ∧ nr = drop sv) ∨
     (nd = distance su + 1 ∧ nr = drop su + elev g v - elev g u)).
Proof using Hshape.
  intros Hv Hu Hsu Hsv Hd Hr. unfold relax, lex_le.
  rewrite (at_index_Some st u su), !at_index_data by (done || apply Hu).
  simpl. rewrite (at_index_Some st v sv) by (done || apply Hv). simpl.
  rewrite sub32_add32. unfold add32. rewrite !wrap_small by done.
  rewrite Z.gtb_ltb.
  destruct (Z.ltb_spec (distance sv) (distance su + 1)) as [Hlt|Hge].
  { eexists _, _. split; [done|]. lia. }
  destruct (Z.eqb_spec (distance su + 1) (distance sv)) as [Heq|Hne].
  { eexists _, _. split; [done|]. lia. }
  exists (distance sv), (drop sv). split; [|lia].
  unfold set_state. rewrite list_insert_id; [done|]. by destruct sv.
Qed.

(** The tie-break of [relax] in plain arithmetic: a strictly longer
    candidate replaces the recorded pair, a candidate of equal length keeps
    the greater drop, a shorter one is discarded. *)
Lemma relax_tie_break st v u su sv :
  in_range g v → in_range g u →
  st !! Z.to_nat u = Some su → st !! Z.to_nat v = Some sv →
  INT_MIN ≤ distance su + 1 ≤ INT_MAX →
  INT_MIN ≤ drop su + elev g v - elev g u ≤ INT_MAX →
  let L := distance su + 1 in
  let D := drop su + elev g v - elev g u in
  relax g v u st
  = Done (set_state st v
            {| visited := visited sv;
               distance := if distance sv <? L then L else distance sv;
               drop := if distance sv <? L then D
                       else if L =? distance sv then Z.max (drop sv) D
                       else drop sv |}).
Proof using Hshape.
  intros Hv Hu Hsu Hsv Hd Hr. unfold relax.
  rewrite (at_index_Some st u su), !at_index_data by (done || apply Hu).
  simpl. rewrite (at_index_Some st v sv) by (done || apply Hv). simpl.
  rewrite sub32_add32. unfold add32. rewrite !wrap_small by done.
  rewrite Z.gtb_ltb.
  destruct (distance sv <? distance su + 1); [done|].
  destruct (distance su + 1 =? distance sv); [done|].
  unfold set_state. rewrite list_insert_id; [done|]. by destruct sv.
Qed.

Lemma dfs_spec fuel :
  ∀ v st,
    in_range g v → Z.of_nat (length st) = size g →
    (∀ w n, path g v w n → n ≤ Z.of_nat fuel) →
    (∀ w, in_range g w → elev g w ≤ elev g v → cell_ok g st w) →
    (∃ s, st !! Z.to_nat v = Some s ∧ visited s = false) →
    post (dfs fuel g v st) (dfs_post g v st).
Proof using Hshape Hfit.
  induction fuel as [|fuel IH]; intros v st0 Hv Hlen Hfuel Hok (sv0 & Hsv0 & Hunv0).
  { specialize (Hfuel v 1 (path_one g v Hv)). lia. }
  pose proof Hshape as (_ & _ & _ & Hmax & _).
  simpl. rewrite (lower_neighbors_eq v Hv). simpl.
  apply post_bind.
  apply (post_mono _ (dfs_inv g v st0 (lower_list g v))).
  { apply foldM_post.
    - (* the invariant holds on entry *)
      split; [done|]. split; [intros w Hw Hlt; apply Hok; [done|lia]|].
      split; [done|]. split; [done|].
      destruct (Hok v Hv) as (s & Hs & Hs'); [lia|].
      assert (s = sv0) as -> by congruence. rewrite Hunv0 in Hs'.
      destruct Hs' as [Hd Hr]. exists sv0. split; [done|]. split; [done|].
      split.
      + exists v. rewrite Hd, Hr. split; [by apply path_one|lia].
      + intros u w n []%elem_of_nil.
    - (* one neighbour *)
      intros pre u suf st1 Hl (Hlen1 & Hbelow & Hframe & Hvis & sv & Hsv & Hunv & Hatt & Hbnd).
      assert (edge g v u) as He.
      { apply elem_of_lower_list; [done..|]. rewrite Hl.
        apply elem_of_app. right. apply elem_of_cons. by left. }
      pose proof He as (_ & Hu & _ & Hlt).
      destruct (Hbelow u Hu Hlt) as (su & Hsu & Hsu_ok).
      rewrite (at_index_Some st1 u su) by (done || apply Hu). simpl.
      apply post_bind.
      apply (post_mono _ (λ st2,
        length st2 = length st0 ∧
        (∀ w, in_range g w → elev g w < elev g v → cell_ok g st2 w) ∧
        (∀ w, in_range g w → w ≠ v → elev g v ≤ elev g w →
           st2 !! Z.to_nat w = st0 !! Z.to_nat w) ∧
        (∀ i s, st0 !! i = Some s → visited s = true → st2 !! i = Some s) ∧
        st2 !! Z.to_nat v = Some sv ∧
        ∃ su', st2 !! Z.to_nat u = Some su' ∧
          best_from g u (distance su' + 1) (drop su'))).
      + destruct (visited su) eqn:Hvu; simpl.
        { repeat (split; [done|]). by exists su. }
        eapply post_mono.
        { apply (IH u st1); [done|lia| | |by exists su].
          - intros w n Hp.
            specialize (Hfuel w (n + 1) (path_step g v u w n He Hp)). lia.
          - intros w Hw Hle. apply Hbelow; [done|lia]. }
        intros st2 (Hlen2 & Hok2 & Hframe2 & Hvis2 & su' & Hsu' & Hvu').
        split; [lia|]. split.
        { intros w Hw Hw'. destruct (Z.le_gt_cases (elev g w) (elev g u)).
          - by apply Hok2.
          - destruct (Hbelow w Hw Hw') as (s & Hs & Hs').
            exists s. split; [|done]. rewrite Hframe2; [done..|lia]. }
        split.
        { intros w Hw Hne Hle. rewrite Hframe2; [|done|lia]. by apply Hframe. }
        split; [by auto|]. split.
        { rewrite Hframe2; [done..|lia]. }
        exists su'. split; [done|].
        destruct (Hok2 u Hu) as (s & Hs & Hs'); [lia|].
        assert (s = su') as -> by congruence. by rewrite Hvu' in Hs'.
      + intros st2 (Hlen2 & Hbelow2 & Hframe2 & Hvis2 & Hsv2 & su' & Hsu' & Hbest).
        pose proof Hbest as [(w & Hp & Hdrop) Hub].
        pose proof (path_step g v u w _ He Hp) as Hpv.
        pose proof (path_drop _ _ _ Hp) as Hn.
        pose proof (path_length_le_size _ _ _ Hpv) as Hsz.
        destruct (path_in_range _ _ _ Hp) as [_ Hw].
        pose proof (Hfit v w Hv Hw) as Hvw.
        destruct (relax_post st2 v u su' sv Hv Hu Hsu' Hsv2)
          as (nd & nr & -> & Hcand & Hold & Hnew).
        { unfold INT_MIN, INT_MAX in *. lia. }
        { unfold INT_MIN, INT_MAX in *. lia. }
        simpl. unfold set_state.
        assert (∀ x, in_range g x → x ≠ v → Z.to_nat v ≠ Z.to_nat x) as Hnat.
        { intros x Hx Hxv. unfold in_range in *. lia. }
        split; [by rewrite length_insert|]. split.
        { intros x Hx Hx'. destruct (Hbelow2 x Hx Hx') as (s & Hs & Hs').
          exists s. split; [|done].
          rewrite list_lookup_insert_ne; [done|]. apply Hnat; [done|].
          intros ->. lia. }
        split.
        { intros x Hx Hxv Hle.
          rewrite list_lookup_insert_ne by by apply Hnat. by apply Hframe2. }
        split.
        { intros i s Hs Hs'. specialize (Hvis2 i s Hs Hs').
          rewrite list_lookup_insert_ne; [done|].
          intros <-. rewrite Hsv2 in Hvis2. congruence. }
        eexists. split.
        { apply list_lookup_insert_eq. apply lookup_lt_is_Some_1. by exists sv. }
        simpl. split; [done|]. split.
        { destruct Hnew as [[-> ->]|[-> ->]]; [done|].
          exists w. split; [done|lia]. }
        intros u' w' n [Hin| ->%list_elem_of_singleton]%elem_of_app Hp'.
        * specialize (Hbnd u' w' n Hin Hp'). unfold lex_le in *. lia.
        * specialize (Hub w' n Hp'). unfold lex_le in *. lia. }
  (* after the loop *)
  intros st1 (Hlen1 & Hbelow & Hframe & Hvis & sv & Hsv & Hunv & Hatt & Hbnd).
  simpl. rewrite (at_index_Some st1 v sv) by (done || apply Hv). simpl.
  unfold set_state.
  assert (∀ x, in_range g x → x ≠ v → Z.to_nat v ≠ Z.to_nat x) as Hnat.
  { intros x Hx Hxv. unfold in_range in *. lia. }
  assert (<[Z.to_nat v:={| visited := true; distance := distance sv;
                           drop := drop sv |}]> st1 !! Z.to_nat v
          = Some {| visited := true; distance := distance sv; drop := drop sv |})
    as Hnew.
  { apply list_lookup_insert_eq. apply lookup_lt_is_Some_1. by exists sv. }
  split; [by rewrite length_insert|]. split.
  { intros w Hw Hle. destruct (decide (w = v)) as [->|Hne].
    - eexists. split; [done|]. simpl. split; [done|].
      intros w n Hp. inversion Hp as [x Hx|x u y m He Hp']; subst.
      + destruct Hatt as (y & Hy%path_drop & Hdr). unfold lex_le. lia.
      + apply (Hbnd u); [|done]. by apply elem_of_lower_list.
    - assert (cell_ok g st1 w) as (s & Hs & Hs').
      { destruct (Z.le_gt_cases (elev g v) (elev g w)).
        - destruct (Hok w Hw Hle) as (s & Hs & Hs').
          exists s. split; [|done]. by rewrite Hframe.
        - apply Hbelow; [done|lia]. }
      exists s. split; [|done].
      by rewrite list_lookup_insert_ne by by apply Hnat. }
  split.
  { intros w Hw Hlt. rewrite list_lookup_insert_ne.
    - apply Hframe; [done| |lia]. intros ->. lia.
    - apply Hnat; [done|]. intros ->. lia. }
  split.
  { intros i s Hs Hs'. rewrite list_lookup_insert_ne; [by auto|].
    intros <-. congruence. }
  by eexists.
Qed.

(** *** Correctness of [solve] *)

Lemma solve_step_spec pre v suf s :
  seqZ 0 (size g) = pre ++ v :: suf →
  solve_inv g pre s →
  post (solve_step (Z.to_nat (size g)) g s v) (solve_inv g (pre ++ [v])).
Proof using Hshape Hfit.
  intros Hl (Hlen & Hok & Hdone & Hatt & Hbnd).
  assert (in_range g v) as Hv.
  { assert (v ∈ seqZ 0 (size g)) as Hin.
    { rewrite Hl. apply elem_of_app. right. apply elem_of_cons. by left. }
    apply elem_of_seqZ in Hin. unfold in_range. lia. }
  destruct (Hok v Hv) as (sv & Hsv & Hsv_ok).
  unfold solve_step.
  rewrite (at_index_Some (states s) v sv) by (done || apply Hv). simpl.
  apply post_bind.
  apply (post_mono _ (λ st,
    Z.of_nat (length st) = size g ∧
    (∀ w, in_range g w → cell_ok g st w) ∧
    (∀ i x, states s !! i = Some x → visited x = true → st !! i = Some x) ∧
    ∃ sv', st !! Z.to_nat v = Some sv' ∧ visited sv' = true ∧
      best_from g v (distance sv' + 1) (drop sv'))).
  - destruct (visited sv) eqn:Hvis; simpl.
    { repeat (split; [done|]). by exists sv. }
    eapply post_mono.
    { apply (dfs_spec _ v (states s)); [done..| |by auto|by exists sv].
      intros w n Hp%path_length_le_size. lia. }
    intros st (Hlen' & Hok' & Hframe & Hkeep & sv' & Hsv' & Hvis').
    split; [lia|]. split.
    { intros w Hw. destruct (Z.le_gt_cases (elev g w) (elev g v)).
      - by apply Hok'.
      - destruct (Hok w Hw) as (x & Hx & Hx').
        exists x. split; [|done]. rewrite Hframe; [done..|lia]. }
    split; [done|]. exists sv'. split; [done|]. split; [done|].
    destruct (Hok' v Hv) as (x & Hx & Hx'); [lia|].
    assert (x = sv') as -> by congruence. by rewrite Hvis' in Hx'.
  - intros st (Hlen' & Hok' & Hkeep & sv' & Hsv' & Hvis' & Hbest).
    rewrite (at_index_Some st v sv') by (done || apply Hv). simpl.
    pose proof Hbest as [(w & Hp & Hdrop) Hub].
    assert (∃ md mr,
      (if distance sv' >? max_distance s
       then Done {| states := st; max_distance := distance sv';
                    max_drop := drop sv' |}
       else if distance sv' =? max_distance s
       then Done {| states := st; max_distance := max_distance s;
                    max_drop := Z.max (max_drop s) (drop sv') |}
       else Done {| states := st; max_distance := max_distance s;
                    max_drop := max_drop s |})
      = Done {| states := st; max_distance := md; max_drop := mr |} ∧
      lex_le (distance sv') (drop sv') md mr ∧
      lex_le (max_distance s) (max_drop s) md mr ∧
      ((md = max_distance s ∧ mr = max_drop s) ∨
       (md = distance sv' ∧ mr = drop sv'))) as (md & mr & -> & Hcand & Hold & Hnew).
    { unfold lex_le. rewrite Z.gtb_ltb.
      destruct (Z.ltb_spec (max_distance s) (distance sv'));
        [eexists _, _; split; [done|lia]|].
      destruct (Z.eqb_spec (distance sv') (max_distance s));
        eexists _, _; (split; [done|lia]). }
    unfold solve_inv. simpl. split; [done|]. split; [done|]. split.
    { intros x [Hin| ->%list_elem_of_singleton]%elem_of_app.
      - destruct (Hdone x Hin) as (sx & Hsx & Hvx). exists sx. by auto.
      - by exists sv'. }
    split.
    { destruct Hnew as [[-> ->]|[-> ->]]; [done|]. by exists v, w. }
    intros a b n [Hin| ->%list_elem_of_singleton]%elem_of_app Hp'.
    + specialize (Hbnd a b n Hin Hp'). unfold lex_le in *. lia.
    + specialize (Hub b n Hp'). unfold lex_le in *. lia.
Qed.

Lemma solve_loop_spec :
  ∃ s, solve_loop g = Done s ∧ solved g s ∧
       solve g = Done (report (best_length s) (best_drop s)).
Proof using Hshape Hfit.
  pose proof Hshape as (HC & HR & Hsz & Hmax & _).
  assert (1 ≤ size g) as Hpos by nia.
  assert (post (solve_loop g) (solve_inv g (seqZ 0 (size g)))) as Hpost.
  { unfold solve_loop, make_vector.
    destruct (Z.ltb_spec (size g) 0); [lia|]. simpl.
    apply foldM_post; [|intros pre v suf s; apply solve_step_spec].
    unfold solve_inv. simpl.
    split; [rewrite length_replicate; lia|]. split.
    { intros w [Hw0 Hw1]. exists initial_state. split; [|done].
      apply lookup_replicate_2. lia. }
    split; [by intros v ?%elem_of_nil|]. split.
    { exists 0, 0. split; [|lia]. apply path_one. unfold in_range. lia. }
    by intros a b n ?%elem_of_nil. }
  apply post_elim in Hpost as (s & Hs & Hlen & Hok & Hdone & Hatt & Hbnd).
  assert (∀ v, in_range g v → v ∈ seqZ 0 (size g)) as Hall.
  { intros v [Hv0 Hv1]. apply elem_of_seqZ. lia. }
  exists s. split; [done|]. split; [split|].
  - intros v Hv. destruct (Hdone v (Hall v Hv)) as (sv & Hsv & Hvis).
    destruct (Hok v Hv) as (x & Hx & Hx').
    assert (x = sv) as -> by congruence. rewrite Hvis in Hx'.
    unfold length_at, drop_at. by rewrite Hsv.
  - split; [done|]. intros a b n Hp. apply Hbnd; [|done].
    apply Hall. by apply (path_in_range a b n).
  - unfold solve. rewrite Hs. simpl. unfold report, best_length, best_drop.
    destruct Hatt as (a & b & Hp & _).
    pose proof (path_drop _ _ _ Hp). pose proof (path_length_le_size _ _ _ Hp).
    unfold add32. rewrite wrap_small; [done|]. unfold INT_MIN. lia.
Qed.

End Grid.

(** ** Consequences of optimality *)

Lemma lex_le_antisym n d L D : lex_le n d L D → lex_le L D n d → n = L ∧ d = D.
Proof. unfold lex_le. lia. Qed.

Lemma best_from_unique g v L D L' D' :
  best_from g v L D → best_from g v L' D' → L = L' ∧ D = D'.
Proof.
  intros [(w & Hp & Hd) Hub] [(w' & Hp' & Hd') Hub'].
  apply lex_le_antisym.
  - rewrite <- Hd. by apply Hub'.
  - rewrite <- Hd'. by apply Hub.
Qed.

Lemma best_overall_unique g L D L' D' :
  best_overall g L D → best_overall g L' D' → L = L' ∧ D = D'.
Proof.
  intros [(v & w & Hp & Hd) Hub] [(v' & w' & Hp' & Hd') Hub'].
  apply lex_le_antisym.
  - rewrite <- Hd. by apply Hub'.
  - rewrite <- Hd'. by apply Hub.
Qed.

(** The candidate through a lower neighbour never beats the recorded
    pair. *)
Lemma best_from_edge g v u L D Lu Du :
  edge g v u → best_from g v L D → best_from g u Lu Du →
  lex_le (Lu + 1) (Du + (elev g v - elev g u)) L D.
Proof.
  intros He [_ Hub] [(w & Hp & Hd) _].
  pose proof (Hub w _ (path_step g v u w Lu He Hp)) as H.
  unfold lex_le in *. lia.
Qed.

Lemma path_inv g v w n :
  path g v w n →
  (w = v ∧ n = 1) ∨ (∃ u, edge g v u ∧ path g u w (n - 1)).
Proof.
  destruct 1 as [v Hv|v u w n He Hp]; [by left|right].
  exists u. split; [done|]. by replace (n + 1 - 1) with n by lia.
Qed.

(** A local minimum has length 1 and drop 0. *)
Lemma best_from_leaf g v L D :
  (∀ u, ¬ edge g v u) → best_from g v L D → L = 1 ∧ D = 0.
Proof.
  intros Hleaf [(w & Hp & Hd) _].
  apply path_inv in Hp as [[-> ->]|(u & He & _)]; [lia|].
  by destruct (Hleaf u).
Qed.

(** Otherwise the recorded pair is the candidate of some lower neighbour. *)
Lemma best_from_attained g v L D (len drp : Z → Z) :
  (∀ u, in_range g u → best_from g u (len u) (drp u)) →
  (∃ u, edge g v u) → best_from g v L D →
  ∃ u, edge g v u ∧ L = len u + 1 ∧ D = drp u + (elev g v - elev g u).
Proof.
  intros Hall [u0 He0] Hbest.
  pose proof Hbest as [(w & Hp & Hd) Hub].
  apply path_inv in Hp as [[-> ->]|(u & He & Hp')].
  - pose proof He0 as (_ & Hu0 & _).
    pose proof (Hub u0 _ (path_step g v u0 u0 1 He0 (path_one g u0 Hu0))) as H.
    unfold lex_le in H. lia.
  - exists u. split; [done|].
    pose proof He as (_ & Hu & _).
    pose proof (best_from_edge g v u _ _ _ _ He Hbest (Hall u Hu)) as H1.
    destruct (Hall u Hu) as [_ Hubu].
    pose proof (Hubu w _ Hp') as H2.
    unfold lex_le in *. lia.
Qed.

(** ** Well-formed grids *)

Lemma elev_in_data g i : shape_ok g → in_range g i → elev g i ∈ data g.
Proof.
  intros (_ & _ & _ & _ & Hlen) [Hi0 Hi1].
  destruct (lookup_lt_is_Some_2 (data g) (Z.to_nat i)) as [x Hx]; [lia|].
  unfold elev. rewrite Hx. simpl. by apply list_elem_of_lookup_2 in Hx.
Qed.

Lemma well_formed_fit g : well_formed g → drops_fit g.
Proof.
  intros [Hshape Helev] i j Hi Hj.
  pose proof (proj1 (Forall_forall _ _) Helev) as Hall. simpl in Hall.
  pose proof (Hall _ (elev_in_data g i Hshape Hi)).
  pose proof (Hall _ (elev_in_data g j Hshape Hj)). lia.
Qed.

Lemma foldr_max_ge e l x : x ∈ e :: l → x ≤ foldr Z.max e l.
Proof.
  induction l as [|y l IH]; simpl; rewrite ?elem_of_cons, ?elem_of_nil in *.
  - intros [Hx|[]]. lia.
  - intros [Hx|[Hx|Hx]]; [|lia|]; (assert (x ≤ foldr Z.max e l); [|lia]);
      apply IH; auto.
Qed.

Lemma foldr_min_le e l x : x ∈ e :: l → foldr Z.min e l ≤ x.
Proof.
  induction l as [|y l IH]; simpl; rewrite ?elem_of_cons, ?elem_of_nil in *.
  - intros [Hx|[]]. lia.
  - intros [Hx|[Hx|Hx]]; [|lia|]; (assert (foldr Z.min e l ≤ x); [|lia]);
      apply IH; auto.
Qed.

Lemma elev_between g i :
  shape_ok g → in_range g i → min_elev g ≤ elev g i ≤ max_elev g.
Proof.
  intros Hshape Hi. pose proof (elev_in_data g i Hshape Hi) as Hin.
  unfold min_elev, max_elev. destruct (data g) as [|e l].
  - by apply elem_of_nil in Hin.
  - split; [by apply foldr_min_le|by apply foldr_max_ge].
Qed.

(** ** Transformed elevations *)

Section MapElev.
Variable f : Z → Z.
Variable g : ElevationMap.
Hypothesis Hshape : shape_ok g.
Hypothesis Hmono : ∀ x y, x < y ↔ f x < f y.

Lemma shape_ok_map_elev : shape_ok (map_elev f g).
Proof using Hshape.
  destruct Hshape as (HC & HR & Hsz & Hmax & Hlen).
  unfold shape_ok, map_elev. simpl. by rewrite length_fmap.
Qed.

Lemma elev_map_elev i : in_range g i → elev (map_elev f g) i = f (elev g i).
Proof using Hshape.
  destruct Hshape as (_ & _ & _ & _ & Hlen). intros [Hi0 Hi1].
  destruct (lookup_lt_is_Some_2 (data g) (Z.to_nat i)) as [x Hx]; [lia|].
  unfold elev, map_elev. simpl. by rewrite list_lookup_fmap, Hx.
Qed.

Lemma edge_map_elev i j : edge (map_elev f g) i j ↔ edge g i j.
Proof using Hshape Hmono.
  unfold edge.
  change (in_range (map_elev f g)) with (in_range g).
  change (adjacent (map_elev f g)) with (adjacent g).
  split; intros (Hi & Hj & Hadj & Hlt); repeat (split; [done|]).
  - rewrite !elev_map_elev in Hlt by done. by apply (proj2 (Hmono _ _)).
  - rewrite !elev_map_elev by done. by apply (proj1 (Hmono _ _)).
Qed.

Lemma path_map_elev v w n : path (map_elev f g) v w n ↔ path g v w n.
Proof using Hshape Hmono.
  split.
  - induction 1 as [v Hv|v u w n He _ IH].
    + by apply path_one.
    + apply path_step with u; [by apply edge_map_elev|done].
  - induction 1 as [v Hv|v u w n He _ IH].
    + by apply path_one.
    + apply path_step with u; [by apply edge_map_elev|done].
Qed.

(** If [f] changes every difference of elevations by the factor [k], the
    optimum keeps its length and its drop is multiplied by [k]. *)
Lemma best_overall_map_elev k L D :
  0 < k → (∀ x y, f x - f y = k * (x - y)) →
  best_overall g L D → best_overall (map_elev f g) L (k * D).
Proof using Hshape Hmono.
  intros Hk Hf [(v & w & Hp & Hd) Hub]. split.
  - exists v, w. split; [by apply path_map_elev|].
    destruct (path_in_range g v w L Hp) as [Hv Hw].
    rewrite !elev_map_elev, Hf by done. by rewrite Hd.
  - intros a b n Hp'%path_map_elev.
    destruct (path_in_range g a b n Hp') as [Ha Hb].
    rewrite !elev_map_elev, Hf by done.
    specialize (Hub a b n Hp'). unfold lex_le in *. nia.
Qed.

End MapElev.

Lemma drops_fit_add_elev c g : shape_ok g → drops_fit g → drops_fit (add_elev c g).
Proof.
  intros Hshape Hfit i j Hi Hj. unfold add_elev.
  rewrite !elev_map_elev by done. specialize (Hfit i j Hi Hj). lia.
Qed.

(** ** The recursion bound is immaterial *)

Lemma bind_done {A B} (m : outcome A) (f : A → outcome B) (r : B) :
  bind m f = Done r → ∃ a, m = Done a ∧ f a = Done r.
Proof. destruct m; simpl; [eauto|done..]. Qed.

Lemma foldM_done_ext {A S} (f f' : S → A → outcome S) (l : list A) :
  (∀ s a r, f s a = Done r → f' s a = Done r) →
  ∀ s r, foldM f l s = Done r → foldM f' l s = Done r.
Proof.
  intros Hf. induction l as [|a l IH]; intros s r; simpl; [done|].
  intros (s' & Hs' & Hr)%bind_done.
  rewrite (Hf _ _ _ Hs'). simpl. by apply IH.
Qed.

Lemma dfs_fuel_mono g fuel :
  ∀ fuel' v st r,
    (fuel ≤ fuel')%nat → dfs fuel g v st = Done r → dfs fuel' g v st = Done r.
Proof.
  induction fuel as [|fuel IH]; intros fuel' v st r Hle; [done|].
  destruct fuel' as [|fuel']; [lia|]. simpl.
  intros (l & -> & (st' & Hfold & Hr)%bind_done)%bind_done. simpl.
  erewrite foldM_done_ext; [by apply Hr| |by apply Hfold].
  clear -IH Hle. intros s u r (su & -> & (s' & Hs' & Hr)%bind_done)%bind_done.
  simpl. destruct (visited su); simpl in *.
  - injection Hs' as ->. done.
  - rewrite (IH fuel' u s s'); [done|lia|done].
Qed.

(** ** The driver on a well-formed file *)

Lemma read_data_full cells tokens :
  length tokens = length cells → read_data cells tokens = tokens.
Proof.
  revert tokens. induction cells as [|c cells IH]; intros [|t tokens]; simpl;
    try done.
  intros [= Hlen]. by rewrite IH.
Qed.

Lemma read_cells (C R : Z) (cells : list Z) :
  0 ≤ R * C ≤ INT_MAX → Z.of_nat (length cells) = R * C →
  read (C :: R :: cells)
  = Done {| rows := R; columns := C; size := R * C; data := cells |}.
Proof.
  intros Hmax Hlen. unfold read, mul32, make_vector.
  change (skipn 2 (C :: R :: cells)) with cells. simpl.
  rewrite wrap_small by (unfold INT_MIN; lia).
  destruct (Z.ltb_spec (R * C) 0); [lia|]. simpl.
  rewrite read_data_full; [done|]. rewrite length_replicate. lia.
Qed.

(** X1.  A file holding [C], [R] and then [R * C] elevations is read as the
    grid with these dimensions and elevations. *)
Lemma read_grid (C R : Z) (cells : list Z) :
  1 ≤ C → 1 ≤ R → R * C ≤ INT_MAX → Z.of_nat (length cells) = R * C →
  Forall (λ e, 0 ≤ e ≤ INT_MAX) cells →
  read (C :: R :: cells)
  = Done {| rows := R; columns := C; size := R * C; data := cells |} ∧
  well_formed {| rows := R; columns := C; size := R * C; data := cells |}.
Proof.
  intros HC HR Hmax Hlen Hall. split.
  - apply read_cells; [nia|done].
  - split; [|done]. unfold shape_ok. simpl. lia.
Qed.

(** X6.  On such a file the program prints the optimum over the descending
    paths of the grid and exits with code 0. *)
Lemma main_solves (argv : list string) (fs : string → option (list Z))
    (C R : Z) (cells : list Z) :
  (2 ≤ length argv)%nat → fs (nth 1 argv "") = Some (C :: R :: cells) →
  1 ≤ C → 1 ≤ R → R * C ≤ INT_MAX → Z.of_nat (length cells) = R * C →
  Forall (λ e, 0 ≤ e ≤ INT_MAX) cells →
  ∃ L D,
    best_overall {| rows := R; columns := C; size := R * C; data := cells |}
                 L D ∧
    main argv fs
    = Done {| exit_code := 0; stdout := report L D; stderr := "" |}.
Proof.
  intros Hargs Hfs HC HR Hmax Hlen Hall.
  pose proof (read_cells C R cells ltac:(nia) Hlen) as Hread.
  assert (well_formed
            {| rows := R; columns := C; size := R * C; data := cells |})
    as Hwf.
  { split; [|done]. unfold shape_ok. simpl. lia. }
  pose proof Hwf as [Hshape _].
  destruct (solve_loop_spec _ Hshape (well_formed_fit _ Hwf))
    as (s & _ & [_ Hbest] & Hout).
  exists (best_length s), (best_drop s). split; [done|].
  unfold main. destruct (Z.ltb_spec (Z.of_nat (length argv)) 2); [lia|].
  by rewrite Hfs, Hread; simpl; rewrite Hout.
Qed.

(** ** The specification, claim by claim *)

Lemma solved_global g s :
  solved g s →
  (∃ v, in_range g v ∧ length_at s v = best_length s ∧
        drop_at s v = best_drop s) ∧
  (∀ v, in_range g v → length_at s v ≤ best_length s) ∧
  (∀ v, in_range g v → length_at s v = best_length s →
        drop_at s v ≤ best_drop s).
Proof.
  intros [Hcell [(a & b & Hp & Hd) Hub]].
  assert (∀ v, in_range g v →
            lex_le (length_at s v) (drop_at s v) (best_length s) (best_drop s))
    as Hle.
  { intros v Hv. destruct (Hcell v Hv) as [(w & Hpv & <-) _]. by apply Hub. }
  split; [|split].
  - destruct (path_in_range g a b _ Hp) as [Ha _].
    exists a. split; [done|].
    destruct (Hcell a Ha) as [_ Huba]. specialize (Huba b _ Hp).
    rewrite Hd in Huba. by apply lex_le_antisym; [apply Hle|].
  - intros v Hv. specialize (Hle v Hv). unfold lex_le in Hle. lia.
  - intros v Hv Heq. specialize (Hle v Hv). unfold lex_le in Hle. lia.
Qed.

(** C1.  On every (non-empty) well-formed grid [solve] returns, and: for
    every cell the recorded length is the number of cells of the longest
    strictly descending path from it, and the recorded drop is the greatest
    drop among the paths of that length; the recorded pair is the reduction
    of the candidates [(length u + 1, drop u + elev v - elev u)] over the
    lower neighbours [u], compared by length first and by drop on equal
    length, and is [(1, 0)] without a lower neighbour; the printed length
    is the maximum of the recorded lengths, and the printed drop is the
    maximum of the recorded drops over the cells of that length. *)
Theorem solve_computes_longest_then_deepest (g : ElevationMap) :
  well_formed g →
  ∃ s : Search,
    solve_loop g = Done s ∧
    solve g = Done (report (best_length s) (best_drop s)) ∧
    (∀ v, in_range g v → best_from g v (length_at s v) (drop_at s v)) ∧
    (∀ v, in_range g v →
       (∀ u, edge g v u →
          lex_le (length_at s u + 1) (drop_at s u + (elev g v - elev g u))
                 (length_at s v) (drop_at s v)) ∧
       ((∀ u, ¬ edge g v u) → length_at s v = 1 ∧ drop_at s v = 0) ∧
       ((∃ u, edge g v u) →
          ∃ u, edge g v u ∧ length_at s v = length_at s u + 1 ∧
               drop_at s v = drop_at s u + (elev g v - elev g u))) ∧
    (∃ v, in_range g v ∧ length_at s v = best_length s ∧
          drop_at s v = best_drop s) ∧
    (∀ v, in_range g v → length_at s v ≤ best_length s) ∧
    (∀ v, in_range g v → length_at s v = best_length s →
          drop_at s v ≤ best_drop s).
Proof.
  intros Hwf. pose proof Hwf as [Hshape _].
  destruct (solve_loop_spec g Hshape (well_formed_fit g Hwf))
    as (s & Hs & Hsolved & Hout).
  exists s. split; [done|]. split; [done|].
  pose proof Hsolved as [Hcell _]. split; [done|]. split.
  - intros v Hv. split; [|split].
    + intros u He. pose proof He as (_ & Hu & _).
      by apply (best_from_edge g v u); [|apply Hcell..].
    + intros Hleaf. by apply (best_from_leaf g v); [|apply Hcell].
    + intros Hex. by apply (best_from_attained g v); [| |apply Hcell].
  - by apply solved_global.
Qed.

Lemma solve_computes_longest_then_deepest_witness :
  well_formed redmart_map ∧
  ∃ s : Search,
    solve_loop redmart_map = Done s ∧
    best_from redmart_map 6 (length_at s 6) (drop_at s 6).
Proof.
  split; [grid_ok|].
  destruct (solve_computes_longest_then_deepest redmart_map)
    as (s & Hs & _ & Hcell & _); [grid_ok|].
  exists s. split; [exact Hs|]. apply Hcell. unfold in_range. simpl. lia.
Defined.

(** C2.  On a well-formed grid and for an index [i] in range,
    [lower_neighbors] returns exactly the indices [j] of the grid that are
    4-connected neighbours of [i] with [elev i > elev j]: a neighbour
    missing at the boundary is not in range, and a neighbour of equal
    elevation fails the strict comparison. *)
Theorem lower_neighbors_exact (g : ElevationMap) (i : Z) :
  well_formed g → in_range g i →
  ∃ l, lower_neighbors g i = Done l ∧
       ∀ j, j ∈ l ↔ in_range g j ∧ adjacent g i j ∧ elev g i > elev g j.
Proof.
  intros [Hshape _] Hi. exists (lower_list g i).
  split; [by apply lower_neighbors_eq|].
  intros j. rewrite (elem_of_lower_list g Hshape i j Hi). unfold edge.
  split.
  - intros (_ & Hj & Hadj & Hlt). split; [done|]. split; [done|lia].
  - intros (Hj & Hadj & Hlt). split; [done|]. split; [done|].
    split; [done|lia].
Qed.

Lemma lower_neighbors_exact_witness :
  well_formed redmart_map ∧ in_range redmart_map 6 ∧
  ∃ l, lower_neighbors redmart_map 6 = Done l ∧
       ∀ j, j ∈ l ↔ in_range redmart_map j ∧ adjacent redmart_map 6 j ∧
                    elev redmart_map 6 > elev redmart_map j.
Proof.
  split; [grid_ok|]. split; [unfold in_range; simpl; lia|].
  apply (lower_neighbors_exact redmart_map 6);
    [grid_ok|unfold in_range; simpl; lia].
Defined.

(** C3, as the code has it.  [solve] has no check for an empty grid: when
    [size] is 0 its loop runs no iteration, it prints [Length: 1] and
    [Drop: 0], and the driver exits with code 0. *)
Theorem empty_grid_prints_length_one (g : ElevationMap) :
  size g = 0 →
  solve g = Done (report 1 0) ∧
  ∀ argv fs tokens,
    (2 ≤ length argv)%nat → fs (nth 1 argv "") = Some tokens →
    read tokens = Done g →
    main argv fs
    = Done {| exit_code := 0; stdout := report 1 0; stderr := "" |}.
Proof.
  intros Hsize.
  assert (solve g = Done (report 1 0)) as Hsolve.
  { unfold solve, solve_loop. by rewrite Hsize. }
  split; [done|]. intros argv fs tokens Hargs Hfs Hread. unfold main.
  destruct (Z.ltb_spec (Z.of_nat (length argv)) 2); [lia|].
  by rewrite Hfs, Hread; simpl; rewrite Hsolve.
Qed.

Lemma empty_grid_prints_length_one_witness :
  size {| rows := 0; columns := 0; size := 0; data := [] |} = 0 ∧
  solve {| rows := 0; columns := 0; size := 0; data := [] |}
  = Done (report 1 0).
Proof.
  split; [reflexivity|].
  apply (empty_grid_prints_length_one
           {| rows := 0; columns := 0; size := 0; data := [] |}).
  reflexivity.
Defined.

(** C3 fails as stated: the file [0 0] is an empty grid, and the run prints
    a result and exits with code 0. *)
Lemma empty_grid_is_not_an_error :
  read [0; 0] = Done {| rows := 0; columns := 0; size := 0; data := [] |} ∧
  main ["redmart"; "map.txt"] (one_file "map.txt" [0; 0])
  = Done {| exit_code := 0; stdout := report 1 0; stderr := "" |} ∧
  ¬ reports_error (main ["redmart"; "map.txt"] (one_file "map.txt" [0; 0])).
Proof.
  split; [reflexivity|]. split; [reflexivity|].
  intros (e & He & Hcode & _). vm_compute in He.
  injection He as <-. by apply Hcode.
Qed.

(** C4, as the code has it.  The only test of [main] on its arguments is
    [argc < 2]: without a path argument it writes the usage line to
    standard error and returns 1; arguments after the path are ignored. *)
Theorem usage_error_only_without_path
    (fs : string → option (list Z)) (prog path : string)
    (extra : list string) :
  main [] fs = Done {| exit_code := 1; stdout := ""; stderr := usage_text |} ∧
  main [prog] fs
  = Done {| exit_code := 1; stdout := ""; stderr := usage_text |} ∧
  usage_error (main [prog] fs) ∧
  main (prog :: path :: extra) fs = main [prog; path] fs.
Proof.
  split; [done|]. split; [done|]. split.
  - eexists. split; [done|]. by split.
  - unfold main.
    destruct (Z.ltb_spec (Z.of_nat (length (prog :: path :: extra))) 2)
      as [Hlt|_]; [simpl in Hlt; lia|done].
Qed.

(** C4 fails as stated: with an extra argument the program solves the map
    and exits with code 0, with nothing on standard error. *)
Lemma extra_arguments_are_ignored :
  main ["redmart"; "map.txt"; "extra"] (one_file "map.txt" [1; 1; 5])
  = Done {| exit_code := 0; stdout := report 1 0; stderr := "" |} ∧
  ¬ usage_error
      (main ["redmart"; "map.txt"; "extra"] (one_file "map.txt" [1; 1; 5])).
Proof.
  split; [reflexivity|].
  intros (e & He & Hcode & _). vm_compute in He.
  injection He as <-. by apply Hcode.
Qed.

(** C5.  Adding a constant [c] to every elevation of a well-formed grid
    leaves the printed length and the printed drop unchanged. *)
Theorem add_constant_invariant (g : ElevationMap) (c : Z) :
  well_formed g →
  ∃ s s' : Search,
    solve_loop g = Done s ∧ solve_loop (add_elev c g) = Done s' ∧
    best_length s' = best_length s ∧ best_drop s' = best_drop s ∧
    solve (add_elev c g) = solve g.
Proof.
  intros Hwf. pose proof Hwf as [Hshape _].
  pose proof (well_formed_fit g Hwf) as Hfit.
  destruct (solve_loop_spec g Hshape Hfit) as (s & Hs & [_ Hbest] & Hout).
  destruct (solve_loop_spec (add_elev c g)) as (s' & Hs' & [_ Hbest'] & Hout').
  { by apply shape_ok_map_elev. }
  { by apply drops_fit_add_elev. }
  apply (best_overall_map_elev (λ e, e + c) g Hshape) with (k := 1) in Hbest;
    [|intros; lia..].
  destruct (best_overall_unique _ _ _ _ _ Hbest' Hbest) as [HL HD].
  exists s, s'. unfold add_elev in *.
  split; [done|]. split; [done|]. split; [done|]. split; [lia|].
  rewrite Hout, Hout'. f_equal. f_equal; [done|lia].
Qed.

Lemma add_constant_invariant_witness :
  well_formed redmart_map ∧
  solve (add_elev 100 redmart_map) = solve redmart_map.
Proof.
  split; [grid_ok|].
  destruct (add_constant_invariant redmart_map 100)
    as (s & s' & _ & _ & _ & _ & H); [grid_ok|exact H].
Defined.

(** C6.  Multiplying every elevation of a well-formed grid by a positive
    integer [k] (the product being again a well-formed grid) multiplies the
    printed drop by [k] and leaves the printed length unchanged. *)
Theorem scale_multiplies_drop (g : ElevationMap) (k : Z) :
  well_formed g → 0 < k → well_formed (scale_elev k g) →
  ∃ s s' : Search,
    solve_loop g = Done s ∧ solve_loop (scale_elev k g) = Done s' ∧
    best_length s' = best_length s ∧ best_drop s' = k * best_drop s ∧
    solve (scale_elev k g) = Done (report (best_length s) (k * best_drop s)).
Proof.
  intros Hwf Hk Hwf'. pose proof Hwf as [Hshape _].
  pose proof Hwf' as [Hshape' _].
  destruct (solve_loop_spec g Hshape (well_formed_fit g Hwf))
    as (s & Hs & [_ Hbest] & Hout).
  destruct (solve_loop_spec _ Hshape' (well_formed_fit _ Hwf'))
    as (s' & Hs' & [_ Hbest'] & Hout').
  apply (best_overall_map_elev (λ e, k * e) g Hshape) with (k := k) in Hbest;
    [|intros; nia|done|intros; lia].
  destruct (best_overall_unique _ _ _ _ _ Hbest' Hbest) as [HL HD].
  exists s, s'. unfold scale_elev in *.
  split; [done|]. split; [done|]. split; [done|]. split; [done|].
  by rewrite Hout', HL, HD.
Qed.

Lemma scale_multiplies_drop_witness :
  well_formed redmart_map ∧ 0 < 3 ∧ well_formed (scale_elev 3 redmart_map) ∧
  ∃ s s' : Search,
    solve_loop redmart_map = Done s ∧
    solve_loop (scale_elev 3 redmart_map) = Done s' ∧
    best_length s' = best_length s ∧ best_drop s' = 3 * best_drop s.
Proof.
  split; [grid_ok|]. split; [lia|]. split; [grid_ok|].
  destruct (scale_multiplies_drop redmart_map 3)
    as (s & s' & Hs & Hs' & HL & HD & _); [grid_ok|lia|grid_ok|].
  exists s, s'. exact (conj Hs (conj Hs' (conj HL HD))).
Defined.

(** C7.  On a well-formed grid the printed drop is non-negative and at
    most the greatest elevation minus the least elevation. *)
Theorem best_drop_bounds (g : ElevationMap) :
  well_formed g →
  ∃ s : Search,
    solve_loop g = Done s ∧
    solve g = Done (report (best_length s) (best_drop s)) ∧
    0 ≤ best_drop s ≤ max_elev g - min_elev g.
Proof.
  intros Hwf. pose proof Hwf as [Hshape _].
  destruct (solve_loop_spec g Hshape (well_formed_fit g Hwf))
    as (s & Hs & [_ [(a & b & Hp & Hd) _]] & Hout).
  exists s. split; [done|]. split; [done|].
  destruct (path_in_range g a b _ Hp) as [Ha Hb].
  pose proof (path_drop g a b _ Hp).
  pose proof (elev_between g a Hshape Ha).
  pose proof (elev_between g b Hshape Hb). lia.
Qed.

Lemma best_drop_bounds_witness :
  well_formed redmart_map ∧
  ∃ s : Search,
    solve_loop redmart_map = Done s ∧
    0 ≤ best_drop s ≤ max_elev redmart_map - min_elev redmart_map.
Proof.
  split; [grid_ok|].
  destruct (best_drop_bounds redmart_map) as (s & Hs & _ & H); [grid_ok|].
  exists s. exact (conj Hs H).
Defined.

(** C8.  On the 4x4 grid with rows 4 8 7 3 / 2 5 9 3 / 6 3 2 5 / 4 4 1 6
    the program prints [Length: 5] and [Drop: 8] and exits with code 0. *)
Theorem redmart_example :
  read redmart_tokens = Done redmart_map ∧
  solve redmart_map
  = Done ("Length: 5" +:+ endl +:+ "Drop: 8" +:+ endl) ∧
  main ["redmart"; "map.txt"] (one_file "map.txt" redmart_tokens)
  = Done {| exit_code := 0;
            stdout := "Length: 5" +:+ endl +:+ "Drop: 8" +:+ endl;
            stderr := "" |}.
Proof. split; [|split]; by vm_compute. Qed.

(** C9.  On a well-formed grid the descending-neighbour relation loses
    elevation along every edge and so has no cycle, and [dfs] from any cell
    of the grid returns, whatever the state vector holds: [size] nested
    calls suffice, and a larger bound gives the same result. *)
Theorem dfs_terminates (g : ElevationMap) (v : Z) (st : list NodeState) :
  well_formed g → in_range g v → Z.of_nat (length st) = size g →
  (∀ u w, edge g u w → elev g w < elev g u) ∧
  (∀ u n, path g u u n → n = 1) ∧
  ∃ st', length st' = length st ∧
    ∀ fuel, (Z.to_nat (size g) ≤ fuel)%nat → dfs fuel g v st = Done st'.
Proof.
  intros [Hshape _] Hv Hlen.
  split; [by intros u w (_ & _ & _ & Hlt)|].
  split; [by apply path_acyclic|].
  destruct (post_elim _ _ (dfs_fuel_enough g Hshape v st Hv Hlen))
    as (st' & Hst' & Hlen').
  exists st'. split; [done|].
  intros fuel Hfuel. by apply (dfs_fuel_mono g (Z.to_nat (size g))).
Qed.

Lemma dfs_terminates_witness :
  well_formed redmart_map ∧ in_range redmart_map 6 ∧
  ∃ st', ∀ fuel, (16 ≤ fuel)%nat →
    dfs fuel redmart_map 6 (replicate 16 initial_state) = Done st'.
Proof.
  split; [grid_ok|]. split; [unfold in_range; simpl; lia|].
  destruct (dfs_terminates redmart_map 6 (replicate 16 initial_state))
    as (_ & _ & st' & _ & H);
    [grid_ok|unfold in_range; simpl; lia|reflexivity|].
  exists st'. exact H.
Defined.

(** C10.  On a well-formed grid, after solving, every cell's recorded drop
    is at least its recorded distance (its length minus 1), and the printed
    drop is at least the printed length minus 1. *)
Theorem drop_at_least_distance (g : ElevationMap) :
  well_formed g →
  ∃ s : Search,
    solve_loop g = Done s ∧
    solve g = Done (report (best_length s) (best_drop s)) ∧
    (∀ v, in_range g v →
       ∃ sv, states s !! Z.to_nat v = Some sv ∧
             0 ≤ distance sv ≤ drop sv) ∧
    best_length s - 1 ≤ best_drop s.
Proof.
  intros Hwf. pose proof Hwf as [Hshape _].
  destruct (solve_loop_spec g Hshape (well_formed_fit g Hwf))
    as (s & Hs & [Hcell [(a & b & Hp & Hd) _]] & Hout).
  exists s. split; [done|]. split; [done|]. split.
  - intros v Hv. destruct (Hcell v Hv) as [(w & Hpv & Hdv) _].
    apply path_drop in Hpv. unfold length_at, drop_at in *.
    destruct (states s !! Z.to_nat v) as [sv|]; [|lia].
    exists sv. split; [done|]. lia.
  - apply path_drop in Hp. unfold best_length, best_drop in *. lia.
Qed.

Lemma drop_at_least_distance_witness :
  well_formed redmart_map ∧
  ∃ s : Search,
    solve_loop redmart_map = Done s ∧ best_length s - 1 ≤ best_drop s.
Proof.
  split; [grid_ok|].
  destruct (drop_at_least_distance redmart_map) as (s & Hs & _ & _ & H);
    [grid_ok|].
  exists s. exact (conj Hs H).
Defined.

(** ** Further scenarios, by evaluation *)

Example single_cell :
  main ["redmart"; "m"] (one_file "m" [1; 1; 5])
  = Done {| exit_code := 0; stdout := report 1 0; stderr := "" |}.
Proof. by vm_compute. Qed.

Example flat_plateau :
  main ["redmart"; "m"] (one_file "m" [2; 2; 3; 3; 3; 3])
  = Done {| exit_code := 0; stdout := report 1 0; stderr := "" |}.
Proof. by vm_compute. Qed.

Example monotone_row :
  main ["redmart"; "m"] (one_file "m" [4; 1; 1; 2; 3; 4])
  = Done {| exit_code := 0; stdout := report 4 3; stderr := "" |}.
Proof. by vm_compute. Qed.

Example branching_peak :
  main ["redmart"; "m"] (one_file "m" [3; 3; 1; 2; 1; 2; 9; 2; 1; 2; 1])
  = Done {| exit_code := 0; stdout := report 3 8; stderr := "" |}.
Proof. by vm_compute. Qed.

Example unreadable_file :
  main ["redmart"; "missing"] (one_file "m" [1; 1; 5])
  = Done {| exit_code := 1; stdout := "";
            stderr := "Can't open missing" +:+ endl |}.
Proof. by vm_compute. Qed.

(** ** Reading a map *)

Lemma take_app_zeros (tokens : list Z) n m k :
  (n ≤ m)%nat → (n ≤ k)%nat →
  take n (tokens ++ replicate m 0) = take n (tokens ++ replicate k 0).
Proof.
  intros Hm Hk. rewrite !take_app, !take_replicate. do 2 f_equal. lia.
Qed.

Lemma read_data_pad n tokens :
  read_data (replicate n 0) tokens = take n (tokens ++ replicate n 0).
Proof.
  revert tokens. induction n as [|n IH]; intros tokens; [done|].
  destruct tokens as [|t tokens]; simpl.
  - rewrite IH. simpl. by rewrite take_replicate, Nat.min_id.
  - rewrite IH. f_equal. apply (take_app_zeros tokens n n (S n)); lia.
Qed.



(** X3.  Integers after the [rows * columns] elevations are never read. *)
Theorem read_ignores_trailing (C R : Z) (cells extra : list Z) :
  Z.of_nat (length cells) = mul32 R C →
  read (C :: R :: cells ++ extra) = read (C :: R :: cells).
Proof.
  intros Hlen. unfold read, make_vector.
  change (nth 0 (C :: R :: ?l) 0) with C.
  change (nth 1 (C :: R :: ?l) 0) with R.
  change (skipn 2 (C :: R :: cells ++ extra)) with (cells ++ extra).
  change (skipn 2 (C :: R :: cells)) with cells.
  destruct (Z.ltb_spec (mul32 R C) 0); [done|]. simpl. do 2 f_equal.
  rewrite !read_data_pad, <- Hlen, Nat2Z.id, <- app_assoc.
  by rewrite !take_app_length.
Qed.

Lemma read_ignores_trailing_witness :
  Z.of_nat (length [5; 6]) = mul32 1 2 ∧
  read (2 :: 1 :: [5; 6] ++ [7; 8]) = read (2 :: 1 :: [5; 6]).
Proof.
  split; [reflexivity|].
  apply (read_ignores_trailing 2 1 [5; 6] [7; 8]). reflexivity.
Defined.





(** ** The driver *)

(** X7.  Whenever the program exits, it either exits with code 1, an empty
    standard output and one diagnostic line (the usage line or
    [Can't open <path>]), or exits with code 0, an empty standard error and
    the two result lines: output and diagnostic never mix. *)
Theorem main_exit_cases (argv : list string) (fs : string → option (list Z))
    (e : Exit) :
  main argv fs = Done e →
  (exit_code e = 1 ∧ stdout e = "" ∧
   (stderr e = usage_text ∨
    (fs (nth 1 argv "") = None ∧
     stderr e = "Can't open " +:+ nth 1 argv "" +:+ endl))) ∨
  (exit_code e = 0 ∧ stderr e = "" ∧ ∃ L D, stdout e = report L D).
Proof.
  unfold main. destruct (Z.of_nat (length argv) <? 2).
  { intros [= <-]. left. simpl. auto. }
  destruct (fs (nth 1 argv "")) as [tokens|].
  - intros (g & _ & (out & Hout & [= <-])%bind_done)%bind_done.
    right. simpl. split; [done|]. split; [done|].
    unfold solve in Hout. apply bind_done in Hout as (s & _ & [= <-]).
    by eexists _, _.
  - intros [= <-]. left. simpl. auto.
Qed.

Lemma main_exit_cases_witness :
  ∃ e, main ["redmart"; "missing"] (one_file "m" [1; 1; 5]) = Done e ∧
    ((exit_code e = 1 ∧ stdout e = "" ∧
      (stderr e = usage_text ∨
       (one_file "m" [1; 1; 5] (nth 1 ["redmart"; "missing"] "") = None ∧
        stderr e
        = "Can't open " +:+ nth 1 ["redmart"; "missing"] "" +:+ endl))) ∨
     (exit_code e = 0 ∧ stderr e = "" ∧ ∃ L D, stdout e = report L D)).
Proof.
  eexists. split; [reflexivity|].
  apply (main_exit_cases ["redmart"; "missing"] (one_file "m" [1; 1; 5])).
  reflexivity.
Defined.

(** ** The neighbour enumeration *)

Lemma lower_if_sublist g c e j : lower_if g c e j `sublist_of` [j].
Proof.
  unfold lower_if. destruct (c && (elev g j <? e)); [done|].
  by apply sublist_nil_l.
Qed.

(** X8.  On a well-formed grid [lower_neighbors] lists its result in the order
    left, right, top, bottom, without repetition: at most four indices. *)
Theorem lower_neighbors_order (g : ElevationMap) (i : Z) :
  well_formed g → in_range g i →
  ∃ l, lower_neighbors g i = Done l ∧
       l `sublist_of` [i - 1; i + 1; i - columns g; i + columns g] ∧
       NoDup l ∧ (length l ≤ 4)%nat.
Proof.
  intros [Hshape _] Hi. exists (lower_list g i).
  split; [by apply lower_neighbors_eq|].
  assert (lower_list g i
            `sublist_of` [i - 1; i + 1; i - columns g; i + columns g]) as Hsub.
  { unfold lower_list.
    apply (sublist_app _ [_]); [apply lower_if_sublist|].
    apply (sublist_app _ [_]); [apply lower_if_sublist|].
    apply (sublist_app _ [_] _ [_]); apply lower_if_sublist. }
  split; [done|]. split; [|by apply sublist_length in Hsub].
  destruct (row_col_bounds g Hshape i Hi) as (_ & Hc & _).
  destruct (decide (columns g = 1)) as [HC|HC].
  - (* a single column: no left or right neighbour *)
    unfold lower_list, lower_if.
    destruct (Z.ltb_spec 0 (col_of g i)); [lia|].
    destruct (Z.ltb_spec (col_of g i) (columns g - 1)); [lia|]. simpl.
    apply (sublist_NoDup _ [i - columns g; i + columns g]).
    + apply NoDup_cons. split; [|apply NoDup_singleton].
      rewrite list_elem_of_singleton. lia.
    + apply (sublist_app _ [_] _ [_]); apply lower_if_sublist.
  - refine (sublist_NoDup _ _ _ Hsub).
    repeat (apply NoDup_cons; split;
            [rewrite ?elem_of_cons, ?elem_of_nil; lia|]).
    apply NoDup_nil_2.
Qed.

Lemma lower_neighbors_order_witness :
  well_formed redmart_map ∧ in_range redmart_map 6 ∧
  ∃ l, lower_neighbors redmart_map 6 = Done l ∧ NoDup l.
Proof.
  split; [grid_ok|]. split; [unfold in_range; simpl; lia|].
  destruct (lower_neighbors_order redmart_map 6)
    as (l & Hl & _ & Hnd & _); [grid_ok|unfold in_range; simpl; lia|].
  exists l. exact (conj Hl Hnd).
Defined.

(** X9.  The enumeration never lists the cell itself, and never lists two cells
    for each other: a listed neighbour does not list the cell back. *)
Theorem lower_neighbors_one_way (g : ElevationMap) (i j : Z) (l : list Z) :
  well_formed g → in_range g i → lower_neighbors g i = Done l → j ∈ l →
  j ≠ i ∧ ∃ l', lower_neighbors g j = Done l' ∧ i ∉ l'.
Proof.
  intros [Hshape _] Hi Hl Hj.
  rewrite (lower_neighbors_eq g Hshape i Hi) in Hl. injection Hl as <-.
  apply (elem_of_lower_list g Hshape i j Hi) in Hj as (_ & Hj & _ & Hlt).
  split; [intros ->; lia|].
  exists (lower_list g j). split; [by apply lower_neighbors_eq|].
  intros (_ & _ & _ & Hlt')%(elem_of_lower_list g Hshape j i Hj). lia.
Qed.

Lemma lower_neighbors_one_way_witness :
  well_formed redmart_map ∧ in_range redmart_map 6 ∧
  lower_neighbors redmart_map 6 = Done [5; 7; 2; 10] ∧ 5 ∈ [5; 7; 2; 10] ∧
  5 ≠ 6 ∧ ∃ l', lower_neighbors redmart_map 5 = Done l' ∧ 6 ∉ l'.
Proof.
  split; [grid_ok|]. split; [unfold in_range; simpl; lia|].
  split; [reflexivity|]. split; [apply elem_of_cons; by left|].
  apply (lower_neighbors_one_way redmart_map 6 5 [5; 7; 2; 10]);
    [grid_ok|unfold in_range; simpl; lia|reflexivity|].
  apply elem_of_cons. by left.
Defined.

(** ** The traversal *)

Lemma relax_frame g st v u :
  shape_ok g →
  Z.of_nat (length st) = size g → in_range g v → in_range g u →
  post (relax g v u st)
       (λ st', length st' = length st ∧
               ∀ i, i ≠ Z.to_nat v → st' !! i = st !! i).
Proof.
  intros Hshape Hlen Hv Hu.
  destruct (lookup_state g st u Hlen Hu) as [su Hsu].
  destruct (lookup_state g st v Hlen Hv) as [sv Hsv].
  unfold relax.
  rewrite (at_index_Some st u su), !at_index_data by (done || apply Hu).
  simpl. rewrite (at_index_Some st v sv) by (done || apply Hv). simpl.
  repeat case_match; simpl; unfold set_state;
    (split; [by rewrite ?length_insert|]); intros i Hi;
    by rewrite ?list_lookup_insert_ne.
Qed.

Lemma dfs_touches_reachable g (Hshape : shape_ok g) fuel :
  ∀ v st,
    in_range g v → Z.of_nat (length st) = size g →
    (∀ w n, path g v w n → n ≤ Z.of_nat fuel) →
    post (dfs fuel g v st)
         (λ st', length st' = length st ∧
                 ∀ w, in_range g w → (∀ n, ¬ path g v w n) →
                      st' !! Z.to_nat w = st !! Z.to_nat w).
Proof.
  induction fuel as [|fuel IH]; intros v st Hv Hlen Hfuel.
  { specialize (Hfuel v 1 (path_one g v Hv)). lia. }
  assert (∀ w, in_range g w → (∀ n, ¬ path g v w n) →
               Z.to_nat w ≠ Z.to_nat v) as Hne.
  { intros w Hw Hnp Heq. apply (Hnp 1).
    assert (w = v) as -> by (unfold in_range in *; lia). by apply path_one. }
  simpl. rewrite (lower_neighbors_eq g Hshape v Hv). simpl.
  apply post_bind.
  eapply post_mono.
  { apply (foldM_post _ (λ _ st',
      length st' = length st ∧
      ∀ w, in_range g w → (∀ n, ¬ path g v w n) →
           st' !! Z.to_nat w = st !! Z.to_nat w)); [done|].
    intros pre u suf st' Hl [Hlen' Hsame].
    assert (edge g v u) as He.
    { apply elem_of_lower_list; [done..|]. rewrite Hl.
      apply elem_of_app. right. apply elem_of_cons. by left. }
    pose proof He as (_ & Hu & _).
    assert (Z.of_nat (length st') = size g) as Hlen'' by lia.
    destruct (lookup_state g st' u Hlen'' Hu) as [su Hsu].
    rewrite (at_index_Some st' u su) by (done || apply Hu). simpl.
    apply post_bind.
    apply (post_mono _ (λ st'',
      length st'' = length st' ∧
      ∀ w, in_range g w → (∀ n, ¬ path g v w n) →
           st'' !! Z.to_nat w = st' !! Z.to_nat w)).
    - destruct (visited su); simpl; [done|].
      eapply post_mono.
      + apply IH; [done..|].
        intros w n Hp.
        specialize (Hfuel w (n + 1) (path_step g v u w n He Hp)). lia.
      + simpl. intros st'' [Hl'' Hs'']. split; [done|].
        intros w Hw Hnp. apply Hs''; [done|].
        intros n Hp. apply (Hnp (n + 1)). by apply path_step with u.
    - intros st'' [Hl'' Hs'']. eapply post_mono.
      + apply relax_frame; [done|lia|done..].
      + simpl. intros st3 [Hl3 Hs3]. split; [lia|].
        intros w Hw Hnp. rewrite Hs3 by by apply Hne.
        rewrite Hs'' by done. by apply Hsame. }
  simpl. intros st' [Hlen' Hsame].
  destruct (lookup_state g st' v) as [sv Hsv]; [lia|done|].
  rewrite (at_index_Some st' v sv) by (done || apply Hv). simpl.
  unfold set_state. split; [by rewrite length_insert|].
  intros w Hw Hnp. rewrite list_lookup_insert_ne by (symmetry; by apply Hne).
  by apply Hsame.
Qed.

(** X10.  [dfs] from a cell [v] of a well-formed grid changes the recorded state
    of no cell outside the descending paths that start at [v]. *)
Theorem dfs_changes_only_reachable (g : ElevationMap) (v : Z)
    (st : list NodeState) :
  well_formed g → in_range g v → Z.of_nat (length st) = size g →
  ∃ st', dfs (Z.to_nat (size g)) g v st = Done st' ∧
    ∀ w, in_range g w → (∀ n, ¬ path g v w n) →
         st' !! Z.to_nat w = st !! Z.to_nat w.
Proof.
  intros [Hshape _] Hv Hlen.
  destruct (post_elim _ _
    (dfs_touches_reachable g Hshape (Z.to_nat (size g)) v st Hv Hlen
       (λ w n Hp, ltac:(apply (path_length_le_size g Hshape) in Hp; lia))))
    as (st' & Hst' & _ & Hsame).
  by exists st'.
Qed.

Lemma dfs_changes_only_reachable_witness :
  well_formed redmart_map ∧ in_range redmart_map 14 ∧
  ∃ st', dfs 16 redmart_map 14 (replicate 16 initial_state) = Done st'.
Proof.
  split; [grid_ok|]. split; [unfold in_range; simpl; lia|].
  destruct (dfs_changes_only_reachable redmart_map 14
              (replicate 16 initial_state))
    as (st' & Hst' & _); [grid_ok|unfold in_range; simpl; lia|reflexivity|].
  exists st'. exact Hst'.
Defined.

(** X11.  Memoization: started on an unvisited cell [v], in a state vector where
    every visited cell holds its optimum and every other cell is untouched,
    [dfs] marks [v] visited with its optimum, leaves every visited cell
    exactly as it was, and leaves the vector in the same condition. *)
Theorem dfs_finalizes (g : ElevationMap) (v : Z) (st : list NodeState) :
  well_formed g → in_range g v → Z.of_nat (length st) = size g →
  (∀ w, in_range g w → cell_ok g st w) →
  (∃ sv, st !! Z.to_nat v = Some sv ∧ visited sv = false) →
  ∃ st', dfs (Z.to_nat (size g)) g v st = Done st' ∧
    length st' = length st ∧
    (∃ sv, st' !! Z.to_nat v = Some sv ∧ visited sv = true ∧
           best_from g v (distance sv + 1) (drop sv)) ∧
    (∀ i s, st !! i = Some s → visited s = true → st' !! i = Some s) ∧
    (∀ w, in_range g w → cell_ok g st' w).
Proof.
  intros Hwf Hv Hlen Hok Hunv. pose proof Hwf as [Hshape _].
  destruct (post_elim _ _
    (dfs_spec g Hshape (well_formed_fit g Hwf) (Z.to_nat (size g)) v st Hv Hlen
       (λ w n Hp, ltac:(apply (path_length_le_size g Hshape) in Hp; lia))
       (λ w Hw _, Hok w Hw) Hunv))
    as (st' & Hst' & Hlen' & Hok' & Hframe & Hkeep & sv & Hsv & Hvis).
  exists st'. split; [done|]. split; [done|].
  assert (∀ w, in_range g w → cell_ok g st' w) as Hall.
  { intros w Hw. destruct (Z.le_gt_cases (elev g w) (elev g v)).
    - by apply Hok'.
    - destruct (Hok w Hw) as (x & Hx & Hx').
      exists x. split; [|done]. rewrite Hframe; [done..|lia]. }
  split; [|by split].
  exists sv. split; [done|]. split; [done|].
  destruct (Hall v Hv) as (x & Hx & Hx').
  assert (x = sv) as -> by congruence. by rewrite Hvis in Hx'.
Qed.

Lemma dfs_finalizes_witness :
  well_formed redmart_map ∧ in_range redmart_map 6 ∧
  ∃ st', dfs 16 redmart_map 6 (replicate 16 initial_state) = Done st' ∧
    ∃ sv, st' !! Z.to_nat 6 = Some sv ∧ visited sv = true ∧
          best_from redmart_map 6 (distance sv + 1) (drop sv).
Proof.
  split; [grid_ok|]. split; [unfold in_range; simpl; lia|].
  destruct (dfs_finalizes redmart_map 6 (replicate 16 initial_state))
    as (st' & Hst' & _ & Hsv & _);
    [grid_ok|unfold in_range; simpl; lia|reflexivity| |
     exists initial_state; split; reflexivity|].
  - intros w [Hw0 Hw1]. exists initial_state. split; [|by split].
    apply lookup_replicate_2. simpl in Hw1. lia.
  - exists st'. exact (conj Hst' Hsv).
Defined.

(** ** The result *)

(** X12.  The printed length is at least 1 and at most the number of cells. *)
Theorem best_length_bounds (g : ElevationMap) :
  well_formed g →
  ∃ s : Search,
    solve_loop g = Done s ∧
    solve g = Done (report (best_length s) (best_drop s)) ∧
    1 ≤ best_length s ≤ rows g * columns g.
Proof.
  intros Hwf. pose proof Hwf as [Hshape _].
  destruct (solve_loop_spec g Hshape (well_formed_fit g Hwf))
    as (s & Hs & [_ [(a & b & Hp & _) _]] & Hout).
  exists s. split; [done|]. split; [done|].
  pose proof (path_drop g a b _ Hp).
  pose proof (path_length_le_size g Hshape a b _ Hp).
  destruct Hshape as (_ & _ & <- & _). lia.
Qed.

Lemma best_length_bounds_witness :
  well_formed redmart_map ∧
  ∃ s : Search,
    solve_loop redmart_map = Done s ∧
    1 ≤ best_length s ≤ rows redmart_map * columns redmart_map.
Proof.
  split; [grid_ok|].
  destruct (best_length_bounds redmart_map) as (s & Hs & _ & H); [grid_ok|].
  exists s. exact (conj Hs H).
Defined.

(** X13.  After solving, a cell has recorded length 1 exactly when
    [lower_neighbors] finds nothing below it, and then its recorded drop
    is 0; every recorded length is between 1 and the number of cells. *)
Theorem length_one_iff_local_minimum (g : ElevationMap) :
  well_formed g →
  ∃ s : Search,
    solve_loop g = Done s ∧
    ∀ v, in_range g v →
      1 ≤ length_at s v ≤ size g ∧
      (length_at s v = 1 ↔ lower_neighbors g v = Done []) ∧
      (length_at s v = 1 → drop_at s v = 0).
Proof.
  intros Hwf. pose proof Hwf as [Hshape _].
  destruct (solve_loop_spec g Hshape (well_formed_fit g Hwf))
    as (s & Hs & [Hcell _] & _).
  exists s. split; [done|]. intros v Hv.
  pose proof (Hcell v Hv) as Hbest.
  pose proof Hbest as [(w & Hp & Hd) Hub].
  pose proof (path_drop g v w _ Hp).
  pose proof (path_length_le_size g Hshape v w _ Hp).
  rewrite (lower_neighbors_eq g Hshape v Hv).
  assert (length_at s v = 1 ↔ ∀ u, ¬ edge g v u) as Hiff.
  { split.
    - intros H1 u He. pose proof He as (_ & Hu & _).
      pose proof (Hub u _ (path_step g v u u 1 He (path_one g u Hu))) as Hle.
      unfold lex_le in Hle. lia.
    - intros Hleaf. by destruct (best_from_leaf g v _ _ Hleaf Hbest). }
  split; [lia|]. split.
  - rewrite Hiff. split.
    + intros Hleaf. destruct (lower_list g v) as [|u l] eqn:E; [done|].
      destruct (Hleaf u). apply elem_of_lower_list; [done..|].
      rewrite E. apply elem_of_cons. by left.
    + intros [= E] u He. apply (elem_of_lower_list g Hshape v u Hv) in He.
      rewrite E in He. by apply elem_of_nil in He.
  - intros H1. pose proof (proj1 Hiff H1) as Hleaf.
    by destruct (best_from_leaf g v _ _ Hleaf Hbest).
Qed.

Lemma length_one_iff_local_minimum_witness :
  well_formed redmart_map ∧
  ∃ s : Search,
    solve_loop redmart_map = Done s ∧
    (length_at s 14 = 1 ↔ lower_neighbors redmart_map 14 = Done []).
Proof.
  split; [grid_ok|].
  destruct (length_one_iff_local_minimum redmart_map) as (s & Hs & H);
    [grid_ok|].
  exists s. split; [exact Hs|].
  apply (H 14). unfold in_range. simpl. lia.
Defined.

(** X14.  The program prints [Length: 1] exactly when no cell of the grid has a
    strictly lower 4-neighbour, and then it prints [Drop: 0]. *)
Theorem length_one_iff_no_descent (g : ElevationMap) :
  well_formed g →
  ∃ s : Search,
    solve_loop g = Done s ∧
    solve g = Done (report (best_length s) (best_drop s)) ∧
    (best_length s = 1 ↔ ∀ i j, ¬ edge g i j) ∧
    (best_length s = 1 → best_drop s = 0).
Proof.
  intros Hwf. pose proof Hwf as [Hshape _].
  destruct (solve_loop_spec g Hshape (well_formed_fit g Hwf))
    as (s & Hs & [_ [(a & b & Hp & Hd) Hub]] & Hout).
  exists s. split; [done|]. split; [done|].
  pose proof (path_drop g a b _ Hp) as Hn.
  assert (best_length s = 1 → best_drop s = 0) as Hzero.
  { intros H1. rewrite H1 in Hp.
    apply path_inv in Hp as [[-> _]|(u & _ & Hp%path_drop)]; lia. }
  split; [|done]. split.
  - intros H1 i j He. pose proof He as (_ & Hj & _).
    pose proof (Hub i j _ (path_step g i j j 1 He (path_one g j Hj))) as Hle.
    unfold lex_le in Hle. lia.
  - intros Hflat.
    apply path_inv in Hp as [[_ ?]|(u & He & _)]; [done|].
    by destruct (Hflat a u).
Qed.

Lemma length_one_iff_no_descent_witness :
  well_formed {| rows := 2; columns := 2; size := 4; data := [3; 3; 3; 3] |} ∧
  ∃ s : Search,
    solve_loop {| rows := 2; columns := 2; size := 4; data := [3; 3; 3; 3] |}
    = Done s ∧
    (best_length s = 1 → best_drop s = 0).
Proof.
  split; [grid_ok|].
  destruct (length_one_iff_no_descent
              {| rows := 2; columns := 2; size := 4; data := [3; 3; 3; 3] |})
    as (s & Hs & _ & _ & H); [grid_ok|].
  exists s. exact (conj Hs H).
Defined.

(** X15.  Relabelling the elevations by a strictly increasing function (the
    result being again a well-formed grid) keeps the printed length: it
    depends on the order of the elevations only. *)
Theorem monotone_relabel_keeps_length (f : Z → Z) (g : ElevationMap) :
  (∀ x y, x < y ↔ f x < f y) →
  well_formed g → well_formed (map_elev f g) →
  ∃ s s' : Search,
    solve_loop g = Done s ∧ solve_loop (map_elev f g) = Done s' ∧
    best_length s' = best_length s.
Proof.
  intros Hmono Hwf Hwf'. pose proof Hwf as [Hshape _].
  pose proof Hwf' as [Hshape' _].
  destruct (solve_loop_spec g Hshape (well_formed_fit g Hwf))
    as (s & Hs & [_ [(a & b & Hp & _) Hub]] & _).
  destruct (solve_loop_spec _ Hshape' (well_formed_fit _ Hwf'))
    as (s' & Hs' & [_ [(a' & b' & Hp' & _) Hub']] & _).
  exists s, s'. split; [done|]. split; [done|].
  apply (path_map_elev f g Hshape Hmono) in Hp'.
  apply (path_map_elev f g Hshape Hmono) in Hp.
  specialize (Hub _ _ _ Hp'). specialize (Hub' _ _ _ Hp).
  unfold lex_le in *. lia.
Qed.

Lemma monotone_relabel_keeps_length_witness :
  (∀ x y, x < y ↔ 2 * x + 1 < 2 * y + 1) ∧
  well_formed redmart_map ∧
  well_formed (map_elev (λ x, 2 * x + 1) redmart_map) ∧
  ∃ s s' : Search,
    solve_loop redmart_map = Done s ∧
    solve_loop (map_elev (λ x, 2 * x + 1) redmart_map) = Done s' ∧
    best_length s' = best_length s.
Proof.
  assert (∀ x y, x < y ↔ 2 * x + 1 < 2 * y + 1) as Hmono.
  { intros x y. lia. }
  split; [exact Hmono|]. split; [grid_ok|]. split; [grid_ok|].
  apply (monotone_relabel_keeps_length (λ x, 2 * x + 1) redmart_map);
    [exact Hmono|grid_ok|grid_ok].
Defined.

(** ** Symmetries *)

Lemma path_morphism φ g' g v w n :
  morphism φ g' g → path g' v w n → path g (φ v) (φ w) n.
Proof.
  intros [Hcell Hadj]. induction 1 as [v Hv|v u w n (Hv & Hu & Ha & Hlt) _ IH].
  - apply path_one. by apply Hcell.
  - apply path_step with (φ u); [|done].
    destruct (Hcell v Hv) as [Hv' Ev]. destruct (Hcell u Hu) as [Hu' Eu].
    split; [done|]. split; [done|]. split; [by apply Hadj|lia].
Qed.

Lemma best_overall_morphism φ ψ g' g L D :
  morphism φ g' g → morphism ψ g g' →
  best_overall g L D → best_overall g' L D.
Proof.
  intros Hφ Hψ [(a & b & Hp & Hd) Hub]. split.
  - exists (ψ a), (ψ b). split; [by apply (path_morphism ψ g g')|].
    destruct (path_in_range g a b L Hp) as [Ha Hb].
    destruct Hψ as [Hcell _].
    destruct (Hcell a Ha) as [_ ->]. by destruct (Hcell b Hb) as [_ ->].
  - intros v w n Hp'.
    destruct (path_in_range g' v w n Hp') as [Hv Hw].
    pose proof (Hub _ _ _ (path_morphism φ g' g v w n Hφ Hp')) as Hle.
    destruct Hφ as [Hcell _].
    destruct (Hcell v Hv) as [_ Ev]. destruct (Hcell w Hw) as [_ Ew].
    by rewrite Ev, Ew in Hle.
Qed.

Lemma elev_reindex R' C' φ g i :
  in_range g i → elev (reindex R' C' φ g) i = elev g (φ i).
Proof.
  intros [Hi0 Hi1]. unfold elev at 1, reindex. simpl.
  rewrite list_lookup_fmap, lookup_seqZ_lt by lia. simpl.
  f_equal. f_equal. lia.
Qed.

Section Reindex.
Variable g : ElevationMap.
Variables (R' C' : Z) (φ ψ : Z → Z).
Hypothesis Hwf : well_formed g.
Hypothesis Hdims : 1 ≤ R' ∧ 1 ≤ C' ∧ size g = R' * C'.
Hypothesis Hφ : ∀ i, in_range g i → in_range g (φ i).
Hypothesis Hψ : ∀ i, in_range g i → in_range g (ψ i) ∧ φ (ψ i) = i.
Hypothesis Hadjφ : ∀ i j, in_range g i → in_range g j →
  adjacent (reindex R' C' φ g) i j → adjacent g (φ i) (φ j).
Hypothesis Hadjψ : ∀ i j, in_range g i → in_range g j →
  adjacent g i j → adjacent (reindex R' C' φ g) (ψ i) (ψ j).

Lemma well_formed_reindex : well_formed (reindex R' C' φ g).
Proof.
  destruct Hwf as [Hshape Helev]. pose proof Hshape as (_ & _ & _ & Hmax & _).
  destruct Hdims as (HR & HC & Hsz). split.
  - unfold shape_ok, reindex. simpl.
    rewrite length_fmap, length_seqZ. repeat (split; [done|]). nia.
  - unfold elev_ok, reindex. simpl. apply Forall_fmap, Forall_forall.
    intros i Hi%elem_of_seqZ. simpl.
    assert (in_range g (φ i)) as Hi' by (apply Hφ; unfold in_range; lia).
    pose proof (elev_in_data g (φ i) Hshape Hi') as Hin.
    by apply (proj1 (Forall_forall _ _) Helev).
Qed.

Lemma morphism_reindex : morphism φ (reindex R' C' φ g) g.
Proof.
  split.
  - intros i Hi. split; [by apply Hφ|]. symmetry. by apply elev_reindex.
  - intros i j Hi Hj. by apply Hadjφ.
Qed.

Lemma morphism_reindex_inv : morphism ψ g (reindex R' C' φ g).
Proof.
  split.
  - intros i Hi. destruct (Hψ i Hi) as [Hi' Hinv]. split; [done|].
    by rewrite elev_reindex, Hinv.
  - intros i j Hi Hj. by apply Hadjψ.
Qed.

(** A rearrangement of the cells that keeps the neighbourhoods keeps what
    the program prints. *)
Lemma solve_reindex :
  well_formed (reindex R' C' φ g) ∧
  solve (reindex R' C' φ g) = solve g ∧
  ∃ s, solve_loop g = Done s ∧
       solve g = Done (report (best_length s) (best_drop s)).
Proof.
  pose proof well_formed_reindex as Hwf'. split; [done|].
  pose proof Hwf as [Hshape _]. pose proof Hwf' as [Hshape' _].
  destruct (solve_loop_spec g Hshape (well_formed_fit g Hwf))
    as (s & Hs & [_ Hbest] & Hout).
  destruct (solve_loop_spec _ Hshape' (well_formed_fit _ Hwf'))
    as (s' & Hs' & [_ Hbest'] & Hout').
  apply (best_overall_morphism φ ψ _ g _ _ morphism_reindex
           morphism_reindex_inv) in Hbest.
  destruct (best_overall_unique _ _ _ _ _ Hbest' Hbest) as [HL HD].
  split; [by rewrite Hout, Hout', HL, HD|]. by exists s.
Qed.

End Reindex.

Lemma cell_in_range g r c :
  shape_ok g → 0 ≤ r < rows g → 0 ≤ c < columns g →
  in_range g (columns g * r + c) ∧
  row_of g (columns g * r + c) = r ∧ col_of g (columns g * r + c) = c.
Proof.
  intros (HC & HR & Hsz & _) Hr Hc. split; [unfold in_range; nia|].
  by apply row_col_unique.
Qed.

Lemma flip_h_index_spec g i :
  shape_ok g → in_range g i →
  in_range g (flip_h_index g i) ∧
  row_of g (flip_h_index g i) = row_of g i ∧
  col_of g (flip_h_index g i) = columns g - 1 - col_of g i ∧
  flip_h_index g (flip_h_index g i) = i.
Proof.
  intros Hshape Hi. destruct (row_col_bounds g Hshape i Hi) as (Ei & Hc & Hr).
  destruct (cell_in_range g (row_of g i) (columns g - 1 - col_of g i))
    as (Hin & Er & Ec); [done|done|lia|].
  fold (flip_h_index g i) in Hin, Er, Ec.
  repeat (split; [done|]).
  unfold flip_h_index at 1. rewrite Er, Ec. lia.
Qed.

Lemma flip_v_index_spec g i :
  shape_ok g → in_range g i →
  in_range g (flip_v_index g i) ∧
  row_of g (flip_v_index g i) = rows g - 1 - row_of g i ∧
  col_of g (flip_v_index g i) = col_of g i ∧
  flip_v_index g (flip_v_index g i) = i.
Proof.
  intros Hshape Hi. destruct (row_col_bounds g Hshape i Hi) as (Ei & Hc & Hr).
  destruct (cell_in_range g (rows g - 1 - row_of g i) (col_of g i))
    as (Hin & Er & Ec); [done|lia|done|].
  fold (flip_v_index g i) in Hin, Er, Ec.
  repeat (split; [done|]).
  unfold flip_v_index at 1. rewrite Er, Ec.
  replace (rows g - 1 - (rows g - 1 - row_of g i)) with (row_of g i) by lia.
  lia.
Qed.

Lemma flip_h_symmetry (g : ElevationMap) :
  well_formed g →
  well_formed (flip_h g) ∧
  solve (flip_h g) = solve g ∧
  (∃ s, solve_loop g = Done s ∧
        solve g = Done (report (best_length s) (best_drop s))) ∧
  ∀ r c, 0 ≤ r < rows g → 0 ≤ c < columns g →
    elev (flip_h g) (columns g * r + c)
    = elev g (columns g * r + (columns g - 1 - c)).
Proof.
  intros Hwf. pose proof Hwf as [Hshape _].
  pose proof Hshape as (HC & HR & Hsz & _).
  destruct (solve_reindex g (rows g) (columns g)
              (flip_h_index g) (flip_h_index g) Hwf) as (Hwf' & Heq & Hs).
  - done.
  - intros i Hi. by destruct (flip_h_index_spec g i Hshape Hi).
  - intros i Hi. by destruct (flip_h_index_spec g i Hshape Hi) as (? & _ & _ & ?).
  - intros i j Hi Hj. unfold adjacent.
    change (row_of (reindex _ _ _ g)) with (row_of g).
    change (col_of (reindex _ _ _ g)) with (col_of g).
    destruct (flip_h_index_spec g i Hshape Hi) as (_ & -> & -> & _).
    destruct (flip_h_index_spec g j Hshape Hj) as (_ & -> & -> & _). lia.
  - intros i j Hi Hj. unfold adjacent.
    change (row_of (reindex _ _ _ g)) with (row_of g).
    change (col_of (reindex _ _ _ g)) with (col_of g).
    destruct (flip_h_index_spec g i Hshape Hi) as (_ & -> & -> & _).
    destruct (flip_h_index_spec g j Hshape Hj) as (_ & -> & -> & _). lia.
  - split; [done|]. split; [done|]. split; [done|].
    intros r c Hr Hc.
    destruct (cell_in_range g r c Hshape Hr Hc) as (Hin & Er & Ec).
    unfold flip_h. rewrite elev_reindex by done.
    unfold flip_h_index. by rewrite Er, Ec.
Qed.

(** X16.  Reversing every row of a well-formed grid gives a well-formed grid on
    which the program prints the same two lines. *)
Theorem flip_h_invariant (g : ElevationMap) :
  well_formed g →
  well_formed (flip_h g) ∧
  solve (flip_h g) = solve g ∧
  (∃ s, solve_loop g = Done s ∧
        solve g = Done (report (best_length s) (best_drop s))) ∧
  ∀ r c, 0 ≤ r < rows g → 0 ≤ c < columns g →
    elev (flip_h g) (columns g * r + c)
    = elev g (columns g * r + (columns g - 1 - c)).
Proof.
  intros Hwf. pose proof (flip_h_symmetry g Hwf) as H.
  repeat (split; [apply H|]). apply H.
Qed.

Lemma flip_h_invariant_witness :
  well_formed redmart_map ∧ solve (flip_h redmart_map) = solve redmart_map ∧
  data (flip_h redmart_map)
  = [3; 7; 8; 4;  3; 9; 5; 2;  5; 2; 3; 6;  6; 1; 4; 4].
Proof.
  split; [grid_ok|]. split; [|reflexivity].
  destruct (flip_h_invariant redmart_map) as (_ & H & _); [grid_ok|exact H].
Defined.

Lemma flip_v_symmetry (g : ElevationMap) :
  well_formed g →
  well_formed (flip_v g) ∧
  solve (flip_v g) = solve g ∧
  (∃ s, solve_loop g = Done s ∧
        solve g = Done (report (best_length s) (best_drop s))) ∧
  ∀ r c, 0 ≤ r < rows g → 0 ≤ c < columns g →
    elev (flip_v g) (columns g * r + c)
    = elev g (columns g * (rows g - 1 - r) + c).
Proof.
  intros Hwf. pose proof Hwf as [Hshape _].
  pose proof Hshape as (HC & HR & Hsz & _).
  destruct (solve_reindex g (rows g) (columns g)
              (flip_v_index g) (flip_v_index g) Hwf) as (Hwf' & Heq & Hs).
  - done.
  - intros i Hi. by destruct (flip_v_index_spec g i Hshape Hi).
  - intros i Hi. by destruct (flip_v_index_spec g i Hshape Hi) as (? & _ & _ & ?).
  - intros i j Hi Hj. unfold adjacent.
    change (row_of (reindex _ _ _ g)) with (row_of g).
    change (col_of (reindex _ _ _ g)) with (col_of g).
    destruct (flip_v_index_spec g i Hshape Hi) as (_ & -> & -> & _).
    destruct (flip_v_index_spec g j Hshape Hj) as (_ & -> & -> & _). lia.
  - intros i j Hi Hj. unfold adjacent.
    change (row_of (reindex _ _ _ g)) with (row_of g).
    change (col_of (reindex _ _ _ g)) with (col_of g).
    destruct (flip_v_index_spec g i Hshape Hi) as (_ & -> & -> & _).
    destruct (flip_v_index_spec g j Hshape Hj) as (_ & -> & -> & _). lia.
  - split; [done|]. split; [done|]. split; [done|].
    intros r c Hr Hc.
    destruct (cell_in_range g r c Hshape Hr Hc) as (Hin & Er & Ec).
    unfold flip_v. rewrite elev_reindex by done.
    unfold flip_v_index. by rewrite Er, Ec.
Qed.

(** X17.  Reversing the order of the rows of a well-formed grid gives a
    well-formed grid on which the program prints the same two lines. *)
Theorem flip_v_invariant (g : ElevationMap) :
  well_formed g →
  well_formed (flip_v g) ∧
  solve (flip_v g) = solve g ∧
  (∃ s, solve_loop g = Done s ∧
        solve g = Done (report (best_length s) (best_drop s))) ∧
  ∀ r c, 0 ≤ r < rows g → 0 ≤ c < columns g →
    elev (flip_v g) (columns g * r + c)
    = elev g (columns g * (rows g - 1 - r) + c).
Proof.
  intros Hwf. pose proof (flip_v_symmetry g Hwf) as H.
  repeat (split; [apply H|]). apply H.
Qed.

Lemma flip_v_invariant_witness :
  well_formed redmart_map ∧ solve (flip_v redmart_map) = solve redmart_map ∧
  data (flip_v redmart_map)
  = [4; 4; 1; 6;  6; 3; 2; 5;  2; 5; 9; 3;  4; 8; 7; 3].
Proof.
  split; [grid_ok|]. split; [|reflexivity].
  destruct (flip_v_invariant redmart_map) as (_ & H & _); [grid_ok|exact H].
Defined.

Lemma transpose_index_spec g i :
  shape_ok g → in_range g i →
  in_range g (transpose_index g i) ∧
  row_of g (transpose_index g i) = i mod rows g ∧
  col_of g (transpose_index g i) = i / rows g.
Proof.
  intros Hshape [Hi0 Hi1]. pose proof Hshape as (HC & HR & Hsz & _).
  pose proof (Z.mod_pos_bound i (rows g)) as Hm.
  assert (0 ≤ i / rows g < columns g) as Hq.
  { split; [apply Z.div_pos; lia|apply Z.div_lt_upper_bound; lia]. }
  apply (cell_in_range g (i mod rows g) (i / rows g)); [done|lia|done].
Qed.

Lemma transpose_index_inv g i :
  shape_ok g → in_range g i →
  in_range g (rows g * col_of g i + row_of g i) ∧
  (rows g * col_of g i + row_of g i) / rows g = col_of g i ∧
  (rows g * col_of g i + row_of g i) mod rows g = row_of g i ∧
  transpose_index g (rows g * col_of g i + row_of g i) = i.
Proof.
  intros Hshape Hi. destruct (row_col_bounds g Hshape i Hi) as (Ei & Hc & Hr).
  pose proof Hshape as (HC & HR & Hsz & _).
  assert ((rows g * col_of g i + row_of g i) / rows g = col_of g i) as Eq.
  { symmetry. by apply (Z.div_unique_pos _ (rows g) _ (row_of g i)). }
  assert ((rows g * col_of g i + row_of g i) mod rows g = row_of g i) as Em.
  { symmetry. by apply (Z.mod_unique_pos _ (rows g) (col_of g i)). }
  split; [unfold in_range; nia|]. split; [done|]. split; [done|].
  unfold transpose_index. rewrite Eq, Em. lia.
Qed.

Lemma transpose_symmetry (g : ElevationMap) :
  well_formed g →
  well_formed (transpose g) ∧
  solve (transpose g) = solve g ∧
  (∃ s, solve_loop g = Done s ∧
        solve g = Done (report (best_length s) (best_drop s))) ∧
  rows (transpose g) = columns g ∧ columns (transpose g) = rows g ∧
  ∀ r c, 0 ≤ r < rows g → 0 ≤ c < columns g →
    elev (transpose g) (rows g * c + r) = elev g (columns g * r + c).
Proof.
  intros Hwf. pose proof Hwf as [Hshape _].
  pose proof Hshape as (HC & HR & Hsz & _).
  destruct (solve_reindex g (columns g) (rows g) (transpose_index g)
              (λ i, rows g * col_of g i + row_of g i) Hwf)
    as (Hwf' & Heq & Hs).
  - repeat split; [done..|lia].
  - intros i Hi. by destruct (transpose_index_spec g i Hshape Hi).
  - intros i Hi. by destruct (transpose_index_inv g i Hshape Hi) as (? & _ & _ & ?).
  - intros i j Hi Hj Hadj. unfold adjacent in *.
    change (row_of (reindex _ _ _ g) ?x) with (x / rows g) in Hadj.
    change (col_of (reindex _ _ _ g) ?x) with (x mod rows g) in Hadj.
    destruct (transpose_index_spec g i Hshape Hi) as (_ & -> & ->).
    destruct (transpose_index_spec g j Hshape Hj) as (_ & -> & ->).
    lia.
  - intros i j Hi Hj Hadj. unfold adjacent in *.
    change (row_of (reindex _ _ _ g) ?x) with (x / rows g).
    change (col_of (reindex _ _ _ g) ?x) with (x mod rows g).
    destruct (transpose_index_inv g i Hshape Hi) as (_ & -> & -> & _).
    destruct (transpose_index_inv g j Hshape Hj) as (_ & -> & -> & _).
    lia.
  - split; [done|]. split; [done|]. split; [done|].
    split; [done|]. split; [done|].
    intros r c Hr Hc.
    destruct (cell_in_range g r c Hshape Hr Hc) as (Hin & Er & Ec).
    destruct (transpose_index_inv g _ Hshape Hin) as (Hin' & _ & _ & Einv).
    rewrite Er, Ec in Hin', Einv.
    unfold transpose. by rewrite elev_reindex, Einv.
Qed.

(** X18.  Transposing a well-formed grid gives a well-formed grid, with rows and
    columns exchanged, on which the program prints the same two lines. *)
Theorem transpose_invariant (g : ElevationMap) :
  well_formed g →
  well_formed (transpose g) ∧
  solve (transpose g) = solve g ∧
  (∃ s, solve_loop g = Done s ∧
        solve g = Done (report (best_length s) (best_drop s))) ∧
  rows (transpose g) = columns g ∧ columns (transpose g) = rows g ∧
  ∀ r c, 0 ≤ r < rows g → 0 ≤ c < columns g →
    elev (transpose g) (rows g * c + r) = elev g (columns g * r + c).
Proof.
  intros Hwf. pose proof (transpose_symmetry g Hwf) as H.
  repeat (split; [apply H|]). apply H.
Qed.

Lemma transpose_invariant_witness :
  well_formed redmart_map ∧
  solve (transpose redmart_map) = solve redmart_map ∧
  data (transpose redmart_map)
  = [4; 2; 6; 4;  8; 5; 3; 4;  7; 9; 2; 1;  3; 3; 5; 6].
Proof.
  split; [grid_ok|]. split; [|reflexivity].
  destruct (transpose_invariant redmart_map) as (_ & H & _); [grid_ok|exact H].
Defined.

(** X19.  Turning a well-formed grid by a quarter turn, either way, or by a half
    turn leaves what the program prints unchanged. *)
Theorem rotation_invariant (g : ElevationMap) :
  well_formed g →
  (solve (rotate_cw g) = solve g ∧
   ∀ r c, 0 ≤ r < rows g → 0 ≤ c < columns g →
     elev (rotate_cw g) (rows g * c + (rows g - 1 - r))
     = elev g (columns g * r + c)) ∧
  (solve (rotate_ccw g) = solve g ∧
   ∀ r c, 0 ≤ r < rows g → 0 ≤ c < columns g →
     elev (rotate_ccw g) (rows g * (columns g - 1 - c) + r)
     = elev g (columns g * r + c)) ∧
  (solve (rotate_180 g) = solve g ∧
   ∀ r c, 0 ≤ r < rows g → 0 ≤ c < columns g →
     elev (rotate_180 g) (columns g * (rows g - 1 - r) + (columns g - 1 - c))
     = elev g (columns g * r + c)).
Proof.
  intros Hwf.
  destruct (transpose_symmetry g Hwf) as (HwfT & HT & _ & HR & HC & HeT).
  destruct (flip_h_symmetry _ HwfT) as (_ & Hcw & _ & Hecw).
  destruct (flip_v_symmetry _ HwfT) as (_ & Hccw & _ & Heccw).
  destruct (flip_v_symmetry g Hwf) as (HwfV & HV & _ & HeV).
  destruct (flip_h_symmetry _ HwfV) as (_ & H180 & _ & He180).
  rewrite HR, HC in Hecw, Heccw.
  change (rows (flip_v g)) with (rows g) in He180.
  change (columns (flip_v g)) with (columns g) in He180.
  unfold rotate_cw, rotate_ccw, rotate_180.
  split; [|split]; (split; [congruence|]); intros r c Hr Hc.
  - rewrite Hecw by lia.
    replace (rows g - 1 - (rows g - 1 - r)) with r by lia. by apply HeT.
  - rewrite Heccw by lia.
    replace (columns g - 1 - (columns g - 1 - c)) with c by lia. by apply HeT.
  - rewrite He180 by lia.
    replace (columns g - 1 - (columns g - 1 - c)) with c by lia.
    rewrite HeV by lia. do 2 f_equal. lia.
Qed.

Lemma rotation_invariant_witness :
  well_formed redmart_map ∧
  solve (rotate_cw redmart_map) = solve redmart_map ∧
  data (rotate_cw redmart_map)
  = [4; 6; 2; 4;  4; 3; 5; 8;  1; 2; 9; 7;  6; 5; 3; 3].
Proof.
  split; [grid_ok|]. split; [|reflexivity].
  destruct (rotation_invariant redmart_map) as ((H & _) & _); [grid_ok|exact H].
Defined.

(** ** A long run *)



Lemma read_grid_witness :
  read (2 :: 1 :: [5; 6])
  = Done {| rows := 1; columns := 2; size := 1 * 2; data := [5; 6] |} ∧
  well_formed {| rows := 1; columns := 2; size := 1 * 2; data := [5; 6] |}.
Proof.
  apply (read_grid 2 1 [5; 6]); try (unfold INT_MAX; simpl; lia).
  repeat (apply List.Forall_cons; [unfold INT_MAX; lia|]).
  apply List.Forall_nil.
Defined.

Lemma main_solves_witness :
  ∃ L D,
    best_overall {| rows := 1; columns := 2; size := 1 * 2; data := [5; 6] |}
                 L D ∧
    main ["redmart"; "m"] (one_file "m" [2; 1; 5; 6])
    = Done {| exit_code := 0; stdout := report L D; stderr := "" |}.
Proof.
  apply (main_solves ["redmart"; "m"] (one_file "m" [2; 1; 5; 6]) 2 1 [5; 6]);
    try (unfold INT_MAX; simpl; lia); try reflexivity.
  repeat (apply List.Forall_cons; [unfold INT_MAX; lia|]).
  apply List.Forall_nil.
Defined.
